(** * Quartorium: the qmd-to-ProseMirror parser and the cache key helpers

    A shallow embedding of

    - [backend/src/core/quartoParser.js] ([qmdToProseMirror]), and
    - the two path helpers of the cache integration test
      ([calculateCacheFilename], [calculateAssetCacheDir]), with the
      constants, the expected image address and the cleanup tests of that
      file, and
    - of the repository routes, the cleaning of a repository name
      ([full_name]), the project directory and [findQmdFiles],

    together with the properties the specification states about them and
    further properties read off the code.

    Modelling choices.

    - JavaScript strings are sequences of UTF-16 code units, modelled as
      lists of [N].  The type tags of syntax-tree nodes, which the code
      only compares with ASCII literals, are kept as [string].
    - The regular expression of the span-detection pass is a list of
      pattern items run by a backtracking matcher; [exec] and its
      [lastIndex] follow the semantics of a regular expression with the
      [g] flag.  The [while] loop around [exec] runs on fuel; that the
      fuel given to it always suffices is a lemma ([scan_text_total]).
    - [qmdToProseMirror] is an [async] function: it returns (the promise
      is fulfilled), throws (the promise is rejected) or does not end.
      Its collaborators are parameters: the comment extractor, gray-matter
      and remark return or throw, and every call of [renderChunk] is
      recorded in a trace.
    - [path.join], [path.normalize] and [path.parse] are those of
      [path.posix], described on the segments of a path; the digest is
      MD5 on the UTF-8 encoding of the string, as [crypto] computes it.
      [path.resolve] and [path.relative] take the working directory of
      the process as a parameter.
    - What [findQmdFiles] sees of the file system is a tree: a directory
      lists its entries in the order of [readdirSync], and [lstatSync]
      tells a directory from everything else.
    - Where a property is about the front matter, gray-matter's [matter]
      is the function [GrayMatter.matter]: the delimiters, the language
      on the line of the opening delimiter, the closing delimiter, the
      line break behind it and the cache by content are those of
      gray-matter; the engine that reads a block (js-yaml for YAML) is a
      parameter that returns or throws. *)

From Stdlib Require Import List NArith ZArith Arith Bool Lia String Ascii.
Import ListNotations.

Set Implicit Arguments.

(* ===================================================================== *)
(** ** JavaScript strings *)
(* ===================================================================== *)

Module Js.

Definition jsstring := list N.

(** An ASCII literal of the source, as a sequence of code units. *)
Definition js (s : string) : jsstring :=
  List.map N_of_ascii (list_ascii_of_string s).

(** A literal that contains double quotes, written with an apostrophe
    in place of each double quote. *)
Definition jsq (s : string) : jsstring :=
  List.map (fun c => if (c =? 39)%N then 34%N else c) (js s).

Fixpoint eqb (a b : jsstring) : bool :=
  match a, b with
  | [], [] => true
  | x :: a', y :: b' => N.eqb x y && eqb a' b'
  | _, _ => false
  end.

(** [s.substring(a, b)] for [a <= b <= s.length]. *)
Definition substring (s : jsstring) (a b : nat) : jsstring :=
  firstn (b - a) (skipn a s).

(** [s.substring(a)]. *)
Definition substring_from (s : jsstring) (a : nat) : jsstring :=
  skipn a s.

(** [arr.join('')] on an array whose holes and [undefined] entries
    count as the empty string. *)
Definition join_empty (parts : list (option jsstring)) : jsstring :=
  List.concat (List.map (fun p => match p with Some s => s | None => [] end) parts).

(** [v || ''] for a value that is a string or [undefined]. *)
Definition or_empty (v : option jsstring) : jsstring :=
  match v with Some s => s | None => [] end.

(** Truthiness of a value that is a string, [null] or [undefined]. *)
Definition truthy (v : option jsstring) : bool :=
  match v with Some (_ :: _) => true | _ => false end.

End Js.
Import Js.

(* ===================================================================== *)
(** ** Regular expressions (the fragment the parser uses) *)
(* ===================================================================== *)

Module RegExp.

(** Character classes. *)
Inductive charset :=
| Lit (c : N)        (* an escaped or ordinary character *)
| NotLit (c : N)     (* [^c] *)
| AnyChar            (* .  (no s flag) *)
| WhiteSpace.        (* \s *)

(** Pattern items, in the order they are written; a capturing group is
    delimited by [GroupOpen] and [GroupClose]. *)
Inductive item :=
| Chr (k : charset)
| Plus (k : charset)     (* k+, greedy *)
| GroupOpen
| GroupClose.

Definition pattern := list item.

Definition is_line_terminator (c : N) : bool :=
  (c =? 10)%N || (c =? 13)%N || (c =? 8232)%N || (c =? 8233)%N.

(** [\s]: WhiteSpace and LineTerminator code points of ECMAScript. *)
Definition is_white_space (c : N) : bool :=
  (c =? 9)%N || (c =? 10)%N || (c =? 11)%N || (c =? 12)%N || (c =? 13)%N
  || (c =? 32)%N || (c =? 160)%N || (c =? 5760)%N
  || ((8192 <=? c)%N && (c <=? 8202)%N)
  || (c =? 8232)%N || (c =? 8233)%N || (c =? 8239)%N || (c =? 8287)%N
  || (c =? 12288)%N || (c =? 65279)%N.

Definition in_class (k : charset) (c : N) : bool :=
  match k with
  | Lit d => (c =? d)%N
  | NotLit d => negb (c =? d)%N
  | AnyChar => negb (is_line_terminator c)
  | WhiteSpace => is_white_space c
  end.

(** Greedy repetition: take as many characters of the class as
    possible, then hand the rest to the continuation; on failure give
    one character back and try again. *)
Fixpoint greedy {R : Type} (k : charset) (cont : jsstring -> option R)
         (s : jsstring) : option R :=
  match s with
  | c :: s' =>
      if in_class k c then
        match greedy k cont s' with
        | Some r => Some r
        | None => cont s
        end
      else cont s
  | [] => cont []
  end.

(** The text consumed between the input [start] and its suffix [s]. *)
Definition capture (start s : jsstring) : jsstring :=
  firstn (List.length start - List.length s) start.

(** Backtracking match of a pattern anchored at the head of [s].
    [opens] holds the inputs at which the currently open groups
    started, [caps] the captures closed so far.  The result is the list
    of captures and the input left after the match. *)
Fixpoint match_items (p : pattern) (s : jsstring) (opens : list jsstring)
         (caps : list jsstring) {struct p} : option (list jsstring * jsstring) :=
  match p with
  | [] => Some (caps, s)
  | Chr k :: p' =>
      match s with
      | c :: s' => if in_class k c then match_items p' s' opens caps else None
      | [] => None
      end
  | Plus k :: p' =>
      match s with
      | c :: s' =>
          if in_class k c
          then greedy k (fun s'' => match_items p' s'' opens caps) s'
          else None
      | [] => None
      end
  | GroupOpen :: p' => match_items p' s (s :: opens) caps
  | GroupClose :: p' =>
      match opens with
      | start :: opens' =>
          match_items p' s opens' (caps ++ [capture start s])
      | [] => None
      end
  end.

(** The match object returned by [exec]: [index], the captures
    [match[1]], [match[2]], ..., and the index just after the match. *)
Record MatchResult := mkMatch {
  index : nat;
  captures : list jsstring;
  endIndex : nat
}.

(** Try the pattern at [i], [i+1], ... where [s] is the input from
    index [i] on. *)
Fixpoint search (p : pattern) (s : jsstring) (i : nat) : option MatchResult :=
  match match_items p s [] [] with
  | Some (caps, rest) =>
      Some (mkMatch i caps (i + (List.length s - List.length rest)))
  | None =>
      match s with
      | [] => None
      | _ :: s' => search p s' (S i)
      end
  end.

(** [re.exec(str)] for a regular expression with the [g] flag whose
    [lastIndex] is [lastIndex]: the match, if any, and the new
    [lastIndex]. *)
Definition exec (p : pattern) (str : jsstring) (lastIndex : nat)
  : option MatchResult * nat :=
  if List.length str <? lastIndex then (None, 0)
  else match search p (skipn lastIndex str) lastIndex with
       | Some m => (Some m, endIndex m)
       | None => (None, 0)
       end.

Definition lits (s : string) : pattern :=
  List.map (fun c => Chr (Lit c)) (js s).

End RegExp.
Import RegExp.

(* ===================================================================== *)
(** ** ProseMirror nodes *)
(* ===================================================================== *)

(** [{ type: 'comment', attrs: { commentId } }] *)
Record Mark := mkMark { commentId : jsstring }.

(** [{ type: 'text', text }] and [{ type: 'text', text, marks: [...] }]. *)
Record TextNode := mkText {
  text : jsstring;
  marks : option (list Mark)
}.

Definition plain (t : jsstring) : TextNode := mkText t None.
Definition commented (t id : jsstring) : TextNode :=
  mkText t (Some [mkMark id]).

(* ===================================================================== *)
(** ** The span-detection pass (quartoParser.js, lines 46-69) *)
(* ===================================================================== *)

(** The regular expression literal of line 46, shown here with an
    apostrophe for each double quote:
    [/\[([^\]]+)\]\{(.comment)\s+ref='([^']+)'\}/g].
    Code units: 91 is the opening bracket, 93 the closing bracket, 123 and
    125 the braces, 34 the double quote. *)
Definition commentSpanRegex : pattern :=
  [Chr (Lit 91); GroupOpen; Plus (NotLit 93); GroupClose; Chr (Lit 93);
   Chr (Lit 123); GroupOpen; Chr AnyChar] ++ lits "comment" ++ [GroupClose;
   Plus WhiteSpace] ++ lits "ref=" ++ [Chr (Lit 34);
   GroupOpen; Plus (NotLit 34); GroupClose; Chr (Lit 34); Chr (Lit 125)].

(** What running a loop for a bounded number of iterations gives. *)
Inductive bounded (A : Type) :=
| Done (a : A)
| OutOfFuel.
Arguments Done {A} a.
Arguments OutOfFuel {A}.

(** The [while ((match = commentSpanRegex.exec(textValue)) !== null)]
    loop and the statement after it.  [lastIndex] is both the local
    variable and the regular expression's own [lastIndex]: they are equal
    whenever the loop condition is evaluated. *)
Fixpoint span_loop (fuel : nat) (textValue : jsstring) (lastIndex : nat)
         (paragraphContent : list TextNode) : bounded (list TextNode) :=
  match fuel with
  | O => OutOfFuel
  | S fuel' =>
      match exec commentSpanRegex textValue lastIndex with
      | (Some m, lastIndex') =>
          let paragraphContent :=
            if lastIndex <? index m
            then paragraphContent ++ [plain (substring textValue lastIndex (index m))]
            else paragraphContent in
          let innerText := nth 0 (captures m) [] in
          let commentId := nth 2 (captures m) [] in
          span_loop fuel' textValue lastIndex'
                    (paragraphContent ++ [commented innerText commentId])
      | (None, _) =>
          Done (if lastIndex <? List.length textValue
                then paragraphContent ++ [plain (substring_from textValue lastIndex)]
                else paragraphContent)
      end
  end.

(** The pass on one text child, appending to [paragraphContent]. *)
Definition scan_text (textValue : jsstring) (paragraphContent : list TextNode)
  : bounded (list TextNode) :=
  span_loop (S (List.length textValue)) textValue 0 paragraphContent.


(* ===================================================================== *)
(** ** Syntax trees *)
(* ===================================================================== *)

(** A node of the markdown syntax tree that [remark().parse] returns: an
    object with a [type] tag and, depending on the tag, [depth], [lang],
    [value] and [children].  A field the object does not have (or that is
    [null]) is [None]. *)
#[local] Unset Elimination Schemes.
Inductive MdNode := mkMd {
  md_type : string;
  md_depth : option N;
  md_lang : option jsstring;
  md_value : option jsstring;
  md_children : option (list MdNode)
}.
#[local] Set Elimination Schemes.

(** The nodes [qmdToProseMirror] pushes. *)
Inductive PMNode :=
| QuartoBlock (code : option jsstring) (chunkOptions htmlOutput : jsstring)
| Heading (level : option N) (content : list TextNode)
| Paragraph (content : list TextNode).

Definition node_type (n : PMNode) : string :=
  match n with
  | QuartoBlock _ _ _ => "quartoBlock"
  | Heading _ _ => "heading"
  | Paragraph _ => "paragraph"
  end.

(* ===================================================================== *)
(** ** Effects: exceptions and calls of the chunk renderer *)
(* ===================================================================== *)

Section Parser.

(** The front-matter object, the comment list and the values a
    collaborator may throw are opaque to the parser. *)
Variables Yaml Comments Err : Type.

Inductive exn :=
| TypeError          (* raised by the language itself *)
| Raised (e : Err).  (* thrown or rejected by a collaborator *)

Inductive outcome (A : Type) :=
| Returned (a : A)
| Thrown (e : exn)
| Diverged.
Arguments Returned {A} a.
Arguments Thrown {A} e.
Arguments Diverged {A}.

(** One call [renderChunk(code, chunkOptions)]. *)
Definition Call := (option jsstring * jsstring)%type.
Definition Trace := list Call.

(** A computation that may call the renderer: it extends the trace of
    calls made so far and returns, throws or diverges. *)
Definition M (A : Type) := Trace -> outcome A * Trace.

Definition ret {A} (a : A) : M A := fun t => (Returned a, t).
Definition throw {A} (e : exn) : M A := fun t => (Thrown e, t).
Definition bind {A B} (m : M A) (k : A -> M B) : M B :=
  fun t => match m t with
           | (Returned a, t') => k a t'
           | (Thrown e, t') => (Thrown e, t')
           | (Diverged, t') => (Diverged, t')
           end.
Definition lift {A} (o : outcome A) : M A := fun t => (o, t).

Notation "x <- m ;; k" := (bind m (fun x => k))
  (at level 61, m at next level, right associativity).

(** *** Collaborators *)

(** [extractCommentsAppendix] (commentUtils.js), [matter]
    (gray-matter) and [remark().parse]: each returns or throws. *)
Variable extractCommentsAppendix : jsstring -> outcome (Comments * jsstring).
Variable matter : jsstring -> outcome (Yaml * jsstring).
Variable remark_parse : jsstring -> outcome MdNode.

(** [renderChunk] (quartoRunner.js): given the calls made before, the
    promise it returns is fulfilled with the output or rejected. *)
Variable renderChunk : Trace -> option jsstring -> jsstring -> outcome jsstring.

Definition await_renderChunk (code : option jsstring) (chunkOptions : jsstring)
  : M jsstring :=
  fun t => (renderChunk t code chunkOptions, t ++ [(code, chunkOptions)]).

(** *** The paragraph branch (lines 41-75) *)

Definition of_bounded {A} (b : bounded A) : outcome A :=
  match b with Done a => Returned a | OutOfFuel => Diverged end.

(** [for (const child of node.children)] *)
Fixpoint paragraph_loop (children : list MdNode) (paragraphContent : list TextNode)
  : outcome (list TextNode) :=
  match children with
  | [] => Returned paragraphContent
  | child :: rest =>
      if (md_type child =? "text")%string then
        match md_value child with
        | Some textValue =>
            match of_bounded (scan_text textValue paragraphContent) with
            | Returned paragraphContent' => paragraph_loop rest paragraphContent'
            | Thrown e => Thrown e
            | Diverged => Diverged
            end
        | None => Thrown TypeError   (* textValue.length of undefined *)
        end
      else
        paragraph_loop rest (paragraphContent ++ [plain (or_empty (md_value child))])
  end.

(** *** The heading branch (lines 33-39) *)

(** [node.children?.map(c => c.value).join('') || ''] *)
Definition heading_text (node : MdNode) : jsstring :=
  match md_children node with
  | Some children => join_empty (List.map md_value children)
  | None => []
  end.

(** *** The block loop (lines 13-83) *)

(** The [else] branch of line 30: what is pushed for a node that is not
    a code chunk. *)
Definition markdown_node (node : MdNode) : outcome (list PMNode) :=
  if (md_type node =? "heading")%string then
    Returned [Heading (md_depth node) [plain (heading_text node)]]
  else if (md_type node =? "paragraph")%string then
    match md_children node with
    | Some children =>
        match paragraph_loop children [] with
        | Returned paragraphContent => Returned [Paragraph paragraphContent]
        | Thrown e => Thrown e
        | Diverged => Diverged
        end
    | None => Thrown TypeError   (* node.children is not iterable *)
    end
  else Returned [].

(** [node.type === 'code' && node.lang] *)
Definition is_chunk (node : MdNode) : bool :=
  (md_type node =? "code")%string && truthy (md_lang node).

(** One iteration of [for (const node of tree.children)]: the nodes it
    pushes. *)
Definition block (node : MdNode) : M (list PMNode) :=
  if is_chunk node then
    let chunkOptions := or_empty (md_lang node) in
    let code := md_value node in
    htmlOutput <- await_renderChunk code chunkOptions ;;
    ret [QuartoBlock code chunkOptions htmlOutput]
  else lift (markdown_node node).

Fixpoint block_loop (nodes : list MdNode) (proseMirrorNodes : list PMNode)
  : M (list PMNode) :=
  match nodes with
  | [] => ret proseMirrorNodes
  | node :: rest =>
      pushed <- block node ;;
      block_loop rest (proseMirrorNodes ++ pushed)
  end.

(** *** [qmdToProseMirror] *)

(** [{ type: 'doc', content, attrs: { yaml } }] *)
Record PMDoc := mkDoc {
  content : list PMNode;
  attrs_yaml : Yaml
}.

Record ParseResult := mkResult {
  prosemirrorJson : PMDoc;
  comments : Comments
}.

Definition qmdToProseMirror (qmdString : jsstring) : M ParseResult :=
  cr <- lift (extractCommentsAppendix qmdString) ;;
  let '(comments, remainingQmdString) := cr in
  ym <- lift (matter remainingQmdString) ;;
  let '(yaml, markdown) := ym in
  tree <- lift (remark_parse markdown) ;;
  match md_children tree with
  | None => throw TypeError   (* tree.children is not iterable *)
  | Some children =>
      proseMirrorNodes <- block_loop children [] ;;
      ret (mkResult (mkDoc proseMirrorNodes yaml) comments)
  end.

(** *** Reading the result *)

(** The blocks that get a node: code chunks, headings, paragraphs. *)
Definition handled (node : MdNode) : bool :=
  is_chunk node || (md_type node =? "heading")%string
  || (md_type node =? "paragraph")%string.

(** A tree as the markdown parser builds it: a paragraph has its list
    of children, and a text child has its value. *)
Definition text_has_value (child : MdNode) : bool :=
  if (md_type child =? "text")%string
  then match md_value child with Some _ => true | None => false end
  else true.

Definition well_formed (node : MdNode) : bool :=
  if (md_type node =? "paragraph")%string
  then match md_children node with
       | Some children => forallb text_has_value children
       | None => false
       end
  else true.

(** [out] is the node of the block [node]. *)
Definition node_of (node : MdNode) (out : PMNode) : Prop :=
  if is_chunk node then
    exists htmlOutput,
      out = QuartoBlock (md_value node) (or_empty (md_lang node)) htmlOutput
  else if (md_type node =? "heading")%string then
    out = Heading (md_depth node) [plain (heading_text node)]
  else if (md_type node =? "paragraph")%string then
    exists children paragraphContent,
      md_children node = Some children
      /\ paragraph_loop children [] = Returned paragraphContent
      /\ out = Paragraph paragraphContent
  else False.

End Parser.

Arguments Returned {Err A} a.
Arguments Thrown {Err A} e.
Arguments Diverged {Err A}.
Arguments TypeError {Err}.

(** The plain text of a node and of all it contains: its [value] if it
    has one, otherwise the plain text of its children, in order. *)
Fixpoint flatten_text (n : MdNode) : jsstring :=
  match n with
  | mkMd _ _ _ (Some v) _ => v
  | mkMd _ _ _ None (Some cs) => List.concat (List.map flatten_text cs)
  | mkMd _ _ _ None None => []
  end.


(* ===================================================================== *)
(** ** Node's [path] module (POSIX flavour) *)
(* ===================================================================== *)

Module Path.

Definition slash : N := 47.
Definition dot : N := 46.

(** The segments between the slashes of a path. *)
Fixpoint split_slash (s : jsstring) : list jsstring :=
  match s with
  | [] => [[]]
  | c :: s' =>
      if (c =? slash)%N then [] :: split_slash s'
      else match split_slash s' with
           | seg :: segs => (c :: seg) :: segs
           | [] => [[c]]
           end
  end.

Fixpoint join_slash (segs : list jsstring) : jsstring :=
  match segs with
  | [] => []
  | [seg] => seg
  | seg :: rest => seg ++ slash :: join_slash rest
  end.

(** One segment seen by [normalizeString]; [res] is the result so far,
    last segment first.  Empty segments and [.] are skipped; [..]
    removes the last segment unless there is none or it is [..]
    itself, in which case it is kept when the path is relative. *)
Definition push_segment (allowAboveRoot : bool) (res : list jsstring)
           (seg : jsstring) : list jsstring :=
  if eqb seg [] || eqb seg [dot] then res
  else if eqb seg [dot; dot] then
    match res with
    | last :: res' =>
        if eqb last [dot; dot]
        then (if allowAboveRoot then [dot; dot] :: res else res)
        else res'
    | [] => if allowAboveRoot then [[dot; dot]] else []
    end
  else seg :: res.

Definition normalizeString (path : jsstring) (allowAboveRoot : bool) : jsstring :=
  join_slash (rev (fold_left (push_segment allowAboveRoot) (split_slash path) [])).

(** [path.normalize] *)
Definition normalize (path : jsstring) : jsstring :=
  match path with
  | [] => [dot]
  | c :: _ =>
      let isAbsolute := (c =? slash)%N in
      let trailingSeparator := (last path 0 =? slash)%N in
      let p := normalizeString path (negb isAbsolute) in
      match p with
      | [] => if isAbsolute then [slash]
              else if trailingSeparator then [dot; slash] else [dot]
      | _ :: _ =>
          let p := if trailingSeparator then p ++ [slash] else p in
          if isAbsolute then slash :: p else p
      end
  end.

(** [path.join(...args)] *)
Definition join (args : list jsstring) : jsstring :=
  match filter (fun a => negb (eqb a [])) args with
  | [] => [dot]
  | parts => normalize (join_slash parts)
  end.

(** The last non-empty segment: [path.parse(p).base]. *)
Definition base (path : jsstring) : jsstring :=
  last (filter (fun a => negb (eqb a [])) (split_slash path)) [].

(** Index of the last [.] of [b], if it has one. *)
Fixpoint last_dot (b : jsstring) : option nat :=
  match b with
  | [] => None
  | c :: b' =>
      match last_dot b' with
      | Some i => Some (S i)
      | None => if (c =? dot)%N then Some 0 else None
      end
  end.

(** [path] is the root slash, its base and nothing but slashes: the scan
    of [path.parse], which stops in front of the root, then meets no
    slash in front of the base. *)
Definition base_follows_root (path : jsstring) : bool :=
  match path with
  | c :: rest =>
      (c =? slash)%N
      && eqb (firstn (List.length (base path)) rest) (base path)
      && forallb (fun d => (d =? slash)%N) (skipn (List.length (base path)) rest)
  | [] => false
  end.

(** [path.parse(p).name]: the base without its extension.  The base
    has no extension when it has no dot, when its only dot is its first
    character, and when it is [..], unless that [..] follows the root
    directly: there [path.parse] takes the second dot for an extension. *)
Definition parse_name (path : jsstring) : jsstring :=
  let b := base path in
  match last_dot b with
  | None => b
  | Some 0 => b
  | Some i =>
      if eqb b [dot; dot] && negb (base_follows_root path) then b
      else firstn i b
  end.

(** [path.resolve(p)] in a process whose working directory is the
    absolute path [cwd]: the path, put behind the working directory when
    it is relative, normalized, with the root slash and without a slash
    at the end. *)
Definition resolve (cwd path : jsstring) : jsstring :=
  let resolvedPath :=
    match path with
    | [] => cwd
    | c :: _ => if (c =? slash)%N then path else cwd ++ slash :: path
    end in
  slash :: normalizeString resolvedPath false.

(** The non-empty segments of a path. *)
Definition segments (path : jsstring) : list jsstring :=
  filter (fun a => negb (eqb a [])) (split_slash path).

(** What is left of two lists of segments behind their common beginning. *)
Fixpoint drop_common (a b : list jsstring) : list jsstring * list jsstring :=
  match a, b with
  | x :: a', y :: b' => if eqb x y then drop_common a' b' else (a, b)
  | _, _ => (a, b)
  end.

(** [path.relative(from, to)]: both paths are resolved; the result
    climbs with one [..] out of every segment of [from] behind the common
    beginning, then descends along what is left of [to]. *)
Definition relative (cwd from to : jsstring) : jsstring :=
  if eqb from to then []
  else
    let from := resolve cwd from in
    let to := resolve cwd to in
    if eqb from to then []
    else
      let (up, down) := drop_common (segments from) (segments to) in
      join_slash (List.map (fun _ => [dot; dot]) up ++ down).

End Path.

(* ===================================================================== *)
(** ** Node's [crypto.createHash('md5')] *)
(* ===================================================================== *)

Module Crypto.

Local Open Scope N_scope.

Definition byte := N.

(** The UTF-8 bytes of one code point. *)
Definition utf8_of_code_point (cp : N) : list byte :=
  if cp <? 128 then [cp]
  else if cp <? 2048 then [192 + cp / 64; 128 + cp mod 64]
  else if cp <? 65536 then
    [224 + cp / 4096; 128 + (cp / 64) mod 64; 128 + cp mod 64]
  else [240 + cp / 262144; 128 + (cp / 4096) mod 64;
        128 + (cp / 64) mod 64; 128 + cp mod 64].

Definition is_high_surrogate (c : N) : bool := (55296 <=? c) && (c <=? 56319).
Definition is_low_surrogate (c : N) : bool := (56320 <=? c) && (c <=? 57343).

(** A string as [update] hashes it: UTF-8, a surrogate pair being one
    code point and a lone surrogate U+FFFD. *)
Fixpoint utf8 (s : jsstring) : list byte :=
  match s with
  | [] => []
  | c :: s' =>
      if is_high_surrogate c then
        match s' with
        | d :: s'' =>
            if is_low_surrogate d
            then utf8_of_code_point (65536 + (c - 55296) * 1024 + (d - 56320))
                   ++ utf8 s''
            else utf8_of_code_point 65533 ++ utf8 s'
        | [] => utf8_of_code_point 65533
        end
      else if is_low_surrogate c then utf8_of_code_point 65533 ++ utf8 s'
      else utf8_of_code_point c ++ utf8 s'
  end.

(** *** MD5 (RFC 1321) on 32-bit words *)

Definition w32 (x : N) : N := x mod 4294967296.
Definition add32 (x y : N) : N := w32 (x + y).
Definition not32 (x : N) : N := 4294967295 - w32 x.
Definition rotl32 (x : N) (n : N) : N :=
  w32 (N.shiftl x n) + N.shiftr (w32 x) (32 - n).

Definition K : list N :=
  [3614090360; 3905402710; 606105819; 3250441966; 4118548399; 1200080426;
   2821735955; 4249261313; 1770035416; 2336552879; 4294925233; 2304563134;
   1804603682; 4254626195; 2792965006; 1236535329; 4129170786; 3225465664;
   643717713; 3921069994; 3593408605; 38016083; 3634488961; 3889429448;
   568446438; 3275163606; 4107603335; 1163531501; 2850285829; 4243563512;
   1735328473; 2368359562; 4294588738; 2272392833; 1839030562; 4259657740;
   2763975236; 1272893353; 4139469664; 3200236656; 681279174; 3936430074;
   3572445317; 76029189; 3654602809; 3873151461; 530742520; 3299628645;
   4096336452; 1126891415; 2878612391; 4237533241; 1700485571; 2399980690;
   4293915773; 2240044497; 1873313359; 4264355552; 2734768916; 1309151649;
   4149444226; 3174756917; 718787259; 3951481745].

Definition shifts : list N :=
  [7; 12; 17; 22; 7; 12; 17; 22; 7; 12; 17; 22; 7; 12; 17; 22;
   5; 9; 14; 20; 5; 9; 14; 20; 5; 9; 14; 20; 5; 9; 14; 20;
   4; 11; 16; 23; 4; 11; 16; 23; 4; 11; 16; 23; 4; 11; 16; 23;
   6; 10; 15; 21; 6; 10; 15; 21; 6; 10; 15; 21; 6; 10; 15; 21].

Record state := mkState { sA : N; sB : N; sC : N; sD : N }.

Definition init : state := mkState 1732584193 4023233417 2562383102 271733878.

(** Round [i] (0 to 63) on the block of sixteen words [M]. *)
Definition round (M : list N) (st : state) (i : nat) : state :=
  let '(mkState a b c d) := st in
  let n := N.of_nat i in
  let '(f, g) :=
    if n <? 16 then (N.lor (N.land b c) (N.land (not32 b) d), n)
    else if n <? 32 then (N.lor (N.land d b) (N.land (not32 d) c), (5 * n + 1) mod 16)
    else if n <? 48 then (N.lxor (N.lxor b c) d, (3 * n + 5) mod 16)
    else (N.lxor c (N.lor b (not32 d)), (7 * n) mod 16) in
  let f := add32 (add32 (add32 f a) (nth i K 0)) (nth (N.to_nat g) M 0) in
  mkState d (add32 b (rotl32 f (nth i shifts 0))) b c.

Definition compress (st : state) (M : list N) : state :=
  let st' := fold_left (round M) (seq 0 64) st in
  mkState (add32 (sA st) (sA st')) (add32 (sB st) (sB st'))
          (add32 (sC st) (sC st')) (add32 (sD st) (sD st')).

(** Little-endian bytes of a word, and back. *)
Definition le_bytes (n : nat) (x : N) : list byte :=
  List.map (fun i => (x / 2 ^ (8 * N.of_nat i)) mod 256) (seq 0 n).

Fixpoint le_word (bs : list byte) : N :=
  match bs with
  | [] => 0
  | b :: bs' => b + 256 * le_word bs'
  end.

(** The message, a 1 bit, zeroes up to 56 modulo 64, and the bit length
    on eight bytes. *)
Definition pad (msg : list byte) : list byte :=
  let len := N.of_nat (List.length msg) in
  let zeros := N.to_nat ((119 - len mod 64) mod 64) in
  msg ++ 128 :: repeat 0 zeros ++ le_bytes 8 ((8 * len) mod 2 ^ 64).

(** Consecutive groups of [n] elements; [fuel] bounds their number. *)
Fixpoint chunks {A} (fuel n : nat) (l : list A) : list (list A) :=
  match fuel, l with
  | O, _ => []
  | _, [] => []
  | S fuel', _ => firstn n l :: chunks fuel' n (skipn n l)
  end.

Definition words_of_block (blk : list byte) : list N :=
  List.map le_word (chunks 16 4 blk).

Definition md5 (msg : list byte) : list byte :=
  let padded := pad msg in
  let blocks := chunks (List.length padded) 64 padded in
  let st := fold_left (fun st blk => compress st (words_of_block blk)) blocks init in
  le_bytes 4 (sA st) ++ le_bytes 4 (sB st) ++ le_bytes 4 (sC st) ++ le_bytes 4 (sD st).

Definition hex_digit (d : N) : N := if d <? 10 then 48 + d else 87 + d.

Definition hex_of_byte (b : byte) : jsstring :=
  [hex_digit ((b / 16) mod 16); hex_digit (b mod 16)].

Definition hex (bs : list byte) : jsstring := List.concat (List.map hex_of_byte bs).

(** A hash object: the bytes it has been fed. *)
Definition Hash := list byte.

(** [crypto.createHash('md5')]: a fresh object. *)
Definition createHash_md5 : Hash := [].

(** [hash.update(data)] with a string. *)
Definition update (h : Hash) (data : jsstring) : Hash := h ++ utf8 data.

(** [hash.digest('hex')] *)
Definition digest_hex (h : Hash) : jsstring := hex (md5 h).

Definition is_hex_digit (c : N) : bool :=
  ((48 <=? c) && (c <=? 57)) || ((97 <=? c) && (c <=? 102)).

End Crypto.

(* ===================================================================== *)
(** ** The cache key helpers of the integration test *)
(* ===================================================================== *)

(** What the code of a process could read besides its arguments: the
    directory of the module, the clock and the process id. *)
Record Process := mkProcess {
  __dirname : jsstring;
  clock : N;
  pid : N
}.

Definition CACHE_DIR (proc : Process) : jsstring :=
  Path.join [__dirname proc; js "../cache"].

Definition CACHE_DIR_RENDERED_DOCS (proc : Process) : jsstring :=
  Path.join [CACHE_DIR proc; js "rendered_docs"].

Definition calculateCacheFilename (proc : Process)
           (repoId docFilepath commitHash : jsstring) : jsstring :=
  let filepathHash :=
    Crypto.digest_hex (Crypto.update Crypto.createHash_md5 docFilepath) in
  Path.join [CACHE_DIR_RENDERED_DOCS proc;
             repoId ++ js "-" ++ filepathHash ++ js "-" ++ commitHash ++ js ".json"].

Definition calculateAssetCacheDir (proc : Process)
           (repoId docFilename commitHash : jsstring) : jsstring :=
  Path.join [CACHE_DIR proc; js "assets"; repoId; commitHash;
             Path.parse_name docFilename ++ js "_files"].

(* ===================================================================== *)
(** ** What the specification calls a comment marker *)
(* ===================================================================== *)

(** A marker is an opening bracket, the inner text, a closing bracket,
    an opening brace, the class [.comment], white space, [ref=], the
    quoted id and a closing brace.  The inner text is not empty and has
    no closing bracket; the id is not empty and has no double quote. *)
Definition marker_text (inner ws id : jsstring) : jsstring :=
  [91%N] ++ inner ++ [93%N; 123%N] ++ js ".comment" ++ ws ++ js "ref="
    ++ [34%N] ++ id ++ [34%N; 125%N].

Record is_marker (m inner id : jsstring) (ws : jsstring) : Prop := {
  marker_eq : m = marker_text inner ws id;
  inner_nonempty : inner <> [];
  inner_no_bracket : Forall (fun c => c <> 93%N) inner;
  ws_nonempty : ws <> [];
  ws_white : Forall (fun c => is_white_space c = true) ws;
  id_nonempty : id <> [];
  id_no_quote : Forall (fun c => c <> 34%N) id
}.

(** A marker starts at index [i] of [s]. *)
Definition marker_starts_at (s : jsstring) (i : nat) : Prop :=
  exists m inner id ws rest, is_marker m inner id ws /\ i <= List.length s /\ skipn i s = m ++ rest.

(** A run of plain text is emitted only when it is not empty. *)
Definition plain_opt (s : jsstring) : list TextNode :=
  match s with [] => [] | _ :: _ => [plain s] end.

(** The segments of a text: up to the leftmost marker the text is plain,
    the marker contributes its inner text with the comment mark, and what
    follows the marker is segmented in the same way. *)
Inductive Segments : jsstring -> list TextNode -> Prop :=
| Segments_plain s :
    (forall i, ~ marker_starts_at s i) ->
    Segments s (plain_opt s)
| Segments_marker s pre m inner id ws post l :
    s = pre ++ m ++ post ->
    is_marker m inner id ws ->
    (forall i, i < List.length pre -> ~ marker_starts_at s i) ->
    Segments post l ->
    Segments s (plain_opt pre ++ commented inner id :: l).

(** The text with every marker replaced by its inner text. *)
Inductive Replaced : jsstring -> jsstring -> Prop :=
| Replaced_plain s :
    (forall i, ~ marker_starts_at s i) ->
    Replaced s s
| Replaced_marker s pre m inner id ws post r :
    s = pre ++ m ++ post ->
    is_marker m inner id ws ->
    (forall i, i < List.length pre -> ~ marker_starts_at s i) ->
    Replaced post r ->
    Replaced s (pre ++ inner ++ r).

Definition starts_with (p s : jsstring) : bool :=
  eqb (firstn (List.length p) s) p.

(** Every closing bracket followed by an opening brace, one character
    and [comment] has the dot as that character. *)
Fixpoint class_is_dotted (s : jsstring) : bool :=
  match s with
  | [] => true
  | c :: s' =>
      (match s' with
       | b :: d :: s'' =>
           if (c =? 93)%N && (b =? 123)%N && starts_with (js "comment") s''
           then (d =? 46)%N else true
       | _ => true
       end) && class_is_dotted s'
  end.

(** The text the pattern of [commentSpanRegex] matches, with any
    character [x] where the pattern has its unescaped dot. *)
Definition matched_text (x : N) (inner ws id : jsstring) : jsstring :=
  [91%N] ++ inner ++ [93%N; 123%N; x] ++ js "comment" ++ ws ++ js "ref="
    ++ [34%N] ++ id ++ [34%N; 125%N].

(** The loop of the span-detection pass read on the text that is left:
    either the pattern matches nowhere, or it matches first after [pre],
    and the loop goes on behind that match. *)
Inductive Scanned : jsstring -> list TextNode -> Prop :=
| Scanned_end s :
    (forall j, j <= List.length s ->
               match_items commentSpanRegex (skipn j s) [] [] = None) ->
    Scanned s (plain_opt s)
| Scanned_hit s pre x inner ws id rest l :
    s = pre ++ matched_text x inner ws id ++ rest ->
    is_line_terminator x = false ->
    inner <> [] -> forallb (in_class (NotLit 93)) inner = true ->
    ws <> [] -> forallb is_white_space ws = true ->
    id <> [] -> forallb (in_class (NotLit 34)) id = true ->
    (forall j, j < List.length pre ->
               match_items commentSpanRegex (skipn j s) [] [] = None) ->
    Scanned rest l ->
    Scanned s (plain_opt pre ++ commented inner id :: l).

(* ===================================================================== *)
(** ** Syntax trees and collaborators used in examples *)
(* ===================================================================== *)

Definition md_text (v : jsstring) : MdNode :=
  mkMd "text" None None (Some v) None.
Definition md_strong (cs : list MdNode) : MdNode :=
  mkMd "strong" None None None (Some cs).
Definition md_heading (d : N) (cs : list MdNode) : MdNode :=
  mkMd "heading" (Some d) None None (Some cs).
Definition md_paragraph (cs : list MdNode) : MdNode :=
  mkMd "paragraph" None None None (Some cs).
Definition md_code (lang : option jsstring) (v : jsstring) : MdNode :=
  mkMd "code" None lang (Some v) None.
Definition md_blockquote (cs : list MdNode) : MdNode :=
  mkMd "blockquote" None None None (Some cs).
Definition md_root (cs : list MdNode) : MdNode :=
  mkMd "root" None None None (Some cs).

(** The body of the scenario of the specification: a heading line, a
    line feed and a line with one marker. *)
Definition scenario_body : jsstring :=
  js "# T" ++ [10%N] ++ jsq "Hello [world]{.comment ref='c1'}".

(** The syntax tree of [scenario_body]: brackets that are no link stay
    in the text, so the second line is one text node. *)
Definition scenario_tree : MdNode :=
  md_root [md_heading 1 [md_text (js "T")];
           md_paragraph [md_text (jsq "Hello [world]{.comment ref='c1'}")]].

(** Collaborators for the scenario: the appendix holds the comment [c1],
    there is no front matter, and the parser of markdown is given by its
    answer on [scenario_body]. *)
Definition scenario_extract (q : jsstring) : outcome unit (list jsstring * jsstring) :=
  Returned ([js "c1"], scenario_body).
Definition no_front_matter (s : jsstring) : outcome unit (unit * jsstring) :=
  Returned (tt, s).
Definition scenario_parse (md : jsstring) : outcome unit MdNode :=
  if eqb md scenario_body then Returned scenario_tree else Returned (md_root []).
Definition never_called (t : Trace) (code : option jsstring) (chunkOptions : jsstring)
  : outcome unit jsstring := Thrown (Raised tt).

(** A document with a heading, a chunk, a block quote, a code block
    without language and a paragraph; a renderer that rejects, and one
    that answers with an error payload of its own. *)
Definition chunk_tree : MdNode :=
  md_root [md_heading 2 [md_text (js "Plot")];
           md_code (Some (js "r")) (js "plot(x)");
           md_blockquote [md_paragraph [md_text (js "quoted")]];
           md_code None (js "verbatim");
           md_paragraph [md_text (js "after")]].
Definition chunk_parse (md : jsstring) : outcome unit MdNode := Returned chunk_tree.
Definition plain_extract (q : jsstring) : outcome unit (list jsstring * jsstring) :=
  Returned ([], q).
Definition rejecting_renderChunk (t : Trace) (code : option jsstring)
           (chunkOptions : jsstring) : outcome unit jsstring := Thrown (Raised tt).
Definition payload_renderChunk (t : Trace) (code : option jsstring)
           (chunkOptions : jsstring) : outcome unit jsstring :=
  Returned (js "<pre>Error rendering chunk</pre>").

(** A heading with bold text. *)
Definition bold_heading : MdNode :=
  md_heading 1 [md_text (js "Hello "); md_strong [md_text (js "world")]].

(** Two markers, the second with a tab and a space before [ref]. *)
Definition two_markers : jsstring :=
  jsq "Hello [world]{.comment ref='c1'} and [x]{.comment" ++ [9%N; 32%N]
      ++ jsq "ref='c2'}.".

(** A marker with a tab where the form of the specification has one
    space. *)
Definition tab_marker : jsstring :=
  js "[a]{.comment" ++ [9%N] ++ jsq "ref='c'}".

(** A bracketed text followed by braces whose class is [xcomment]. *)
Definition xcomment_text : jsstring := jsq "[a]{xcomment ref='c'}".

(** The result of the parser on [chunk_tree] with a renderer that
    answers. *)
Definition chunk_result : ParseResult unit (list jsstring) :=
  mkResult
    (mkDoc [Heading (Some 2%N) [plain (js "Plot")];
            QuartoBlock (Some (js "plot(x)")) (js "r")
                        (js "<pre>Error rendering chunk</pre>");
            Paragraph [plain (js "after")]] tt) [].

(* ===================================================================== *)
(** ** Paths that are taken as they are *)
(* ===================================================================== *)

Definition no_slash (s : jsstring) : bool :=
  forallb (fun c => negb (c =? Path.slash)%N) s.

(** A segment that [path.join] keeps as it is: not empty, without
    slash, and neither [.] nor [..]. *)
Definition plain_segment (s : jsstring) : bool :=
  no_slash s && negb (eqb s []) && negb (eqb s [Path.dot])
  && negb (eqb s [Path.dot; Path.dot]).

Definition no_dot (s : jsstring) : bool :=
  forallb (fun c => negb (c =? Path.dot)%N) s.

Definition is_absolute (p : jsstring) : bool :=
  match p with c :: _ => (c =? Path.slash)%N | [] => false end.

(** A normalized absolute path below the root: a slash and plain
    segments joined by slashes. *)
Definition rooted (p : jsstring) (segs : list jsstring) : Prop :=
  segs <> [] /\ Forall (fun s => plain_segment s = true) segs
  /\ p = Path.slash :: Path.join_slash segs.

(** The module directory of the integration test in the examples, and
    a process that runs it. *)
Definition test_dirname : jsstring := js "/srv/app/backend/test".
Definition first_run : Process := mkProcess test_dirname 1700000000000 4242.

(** The commit of the examples. *)
Definition test_commit : jsstring := js "3f2a9c0d1e4b5a69788796a5b4c3d2e1f0a9b8c7".

(* ===================================================================== *)
(** ** Reading calls and segments *)
(* ===================================================================== *)

(** The call [renderChunk(code, chunkOptions)] of line 20 for the block
    [node]. *)
Definition call_of (node : MdNode) : Call :=
  (md_value node, or_empty (md_lang node)).

(** The code and the options of the quartoBlock nodes of a content, in
    order. *)
Definition quarto_calls (nodes : list PMNode) : Trace :=
  flat_map (fun n => match n with
                     | QuartoBlock code chunkOptions _ => [(code, chunkOptions)]
                     | _ => []
                     end) nodes.

(** [a] is [b] with some of its elements left out. *)
Inductive subseq (A : Type) : list A -> list A -> Prop :=
| subseq_nil : subseq [] []
| subseq_skip x a b : subseq a b -> subseq a (x :: b)
| subseq_keep x a b : subseq a b -> subseq (x :: a) (x :: b).

(** A segment as the pass builds it: its text is not empty; if it has
    marks, it has one, whose id is not empty and has no double quote, and
    its text has no closing bracket. *)
Definition segment_ok (seg : TextNode) : Prop :=
  text seg <> []
  /\ match marks seg with
     | None => True
     | Some ms =>
         exists id, ms = [mkMark id] /\ id <> [] /\ ~ In 34%N id
                    /\ ~ In 93%N (text seg)
     end.

(* ===================================================================== *)
(** ** The constants, the expected image address and the cleanup of the
       integration test *)
(* ===================================================================== *)

Definition MOCK_REPO_ID : jsstring := js "test-repo-id-cache".
Definition TEST_DOC_FILENAME : jsstring := js "doc.qmd".
Definition TEST_IMAGE_FILENAME : jsstring := js "test_image.png".

(** The template string of lines 193 and 277, for the commit that the
    test has read. *)
Definition expectedImgSrc (commitHash : jsstring) : jsstring :=
  js "/api/assets/" ++ MOCK_REPO_ID ++ js "/" ++ commitHash ++ js "/"
    ++ Path.parse_name TEST_DOC_FILENAME ++ js "_files/" ++ TEST_IMAGE_FILENAME.

(** [s.endsWith(suffix)] *)
Definition ends_with (suffix s : jsstring) : bool :=
  starts_with (rev suffix) (rev s).

(** The test of line 114 on a name that [readdir] has listed: the file
    is unlinked when it holds. *)
Definition removed_before_each (file : jsstring) : bool :=
  starts_with MOCK_REPO_ID file && ends_with (js ".json") file.

(** The test of line 146. *)
Definition removed_after_all (file : jsstring) : bool :=
  starts_with MOCK_REPO_ID file.

(** The directory that lines 120 and 140 remove with all it holds. *)
Definition assetCacheDirForRepo (proc : Process) : jsstring :=
  Path.join [CACHE_DIR proc; js "assets"; MOCK_REPO_ID].

(** [path] is [dir] or lies below it. *)
Definition inside (dir path : jsstring) : bool :=
  eqb path dir || starts_with (dir ++ js "/") path.

Definition no_hyphen (s : jsstring) : bool :=
  forallb (fun c => negb (c =? 45)%N) s.

(** A second commit, a repository whose id begins with MOCK_REPO_ID, and
    two documents of the same name in different directories. *)
Definition later_commit : jsstring := js "9b8c7d6e5f4a3b2c1d0e9f8a7b6c5d4e3f2a1b0c".
Definition longer_repo_id : jsstring := js "test-repo-id-cache2".
Definition chapter_doc : jsstring := js "chapters/doc.qmd".
Definition appendix_doc : jsstring := js "appendix/doc.md".

(* ===================================================================== *)
(** ** The repository routes: the name of a repository *)
(* ===================================================================== *)

(** [$] without the [m] flag: the end of the input. *)
Definition at_end (s : jsstring) : option jsstring :=
  match s with
  | [] => Some []
  | _ :: _ => None
  end.

(** The regular expression /\/+$/ at the head of [s]: the input left
    after the match.  The slashes are taken greedily and given back one
    by one until the end of the input follows. *)
Definition trailing_slashes (s : jsstring) : option jsstring :=
  match s with
  | c :: s' => if in_class (Lit 47) c then greedy (Lit 47) at_end s' else None
  | [] => None
  end.

(** The regular expression /\.git$/ at the head of [s]. *)
Definition git_suffix (s : jsstring) : option jsstring :=
  match match_items (lits ".git") s [] [] with
  | Some (_, rest) => at_end rest
  | None => None
  end.

(** [str.replace(re, '')] for a regular expression without the [g]
    flag: the leftmost match is taken out; [re] is given by its match at
    the head of an input. *)
Fixpoint replace_first (re : jsstring -> option jsstring) (str : jsstring)
  : jsstring :=
  match re str with
  | Some rest => rest
  | None =>
      match str with
      | [] => []
      | c :: str' => c :: replace_first re str'
      end
  end.

(** Line 52 of the routes: the name of the repository from the path of
    its address,
    [url.pathname.slice(1).replace(/\/+$/, '').replace(/\.git$/, '')]. *)
Definition full_name (pathname : jsstring) : jsstring :=
  replace_first git_suffix (replace_first trailing_slashes (skipn 1 pathname)).

(* ===================================================================== *)
(** ** The repository routes: the documents of a repository *)
(* ===================================================================== *)

(** What [fs] shows of a checked-out repository: a directory lists its
    entries by name, in the order of [readdirSync]; everything else (a
    file, a link, which [lstatSync] does not follow) is not a directory. *)
#[local] Unset Elimination Schemes.
Inductive FsNode :=
| FsFile
| FsDir (entries : list (jsstring * FsNode)).
#[local] Set Elimination Schemes.

(** [s.replace(/\\/g, '/')]: every backslash becomes a slash. *)
Definition backslashes_to_slashes (s : jsstring) : jsstring :=
  List.map (fun c => if (c =? 92)%N then Path.slash else c) s.

Section FindQmdFiles.

(** The working directory of the process, the directory of the
    repository, the directory that is being listed, and the call of
    findQmdFiles on a directory of that listing. *)
Variables cwd projectDir startPath : jsstring.
Variable recurse : jsstring -> FsNode -> option (list jsstring).

(** The [for] loop of lines 126-136 over the entries that are left, with
    the results found so far. *)
Fixpoint each_file (files : list (jsstring * FsNode)) (results : list jsstring)
  : option (list jsstring) :=
  match files with
  | [] => Some results
  | (file, node) :: files' =>
      let filename := Path.join [startPath; file] in
      if eqb file (js ".git") then each_file files' results
      else
        match node with
        | FsDir _ =>
            match recurse filename node with
            | Some found => each_file files' (results ++ found)
            | None => None
            end
        | FsFile =>
            if ends_with (js ".qmd") filename
            then each_file files'
                   (results ++ [backslashes_to_slashes
                                  (Path.relative cwd projectDir filename)])
            else each_file files' results
        end
  end.

End FindQmdFiles.

(** [findQmdFiles(startPath)] of lines 121-138, where [dir] is what
    [startPath] names; [None] stands for the exception of [readdirSync] on
    something that is not a directory. *)
Fixpoint findQmdFiles (cwd projectDir startPath : jsstring) (dir : FsNode)
  : option (list jsstring) :=
  match dir with
  | FsFile => None
  | FsDir files =>
      each_file cwd projectDir startPath
                (fun filename node => findQmdFiles cwd projectDir filename node)
                files []
  end.

(** [const qmdFiles = findQmdFiles(projectDir)]: a path that does not
    exist gives no result. *)
Definition qmdFiles (cwd projectDir : jsstring) (root : option FsNode)
  : option (list jsstring) :=
  match root with
  | None => Some []
  | Some dir => findQmdFiles cwd projectDir projectDir dir
  end.

(** The names of [readdirSync] are plain segments, in every directory. *)
#[local] Unset Elimination Schemes.
Inductive well_named : FsNode -> Prop :=
| well_named_file : well_named FsFile
| well_named_dir files :
    Forall (fun e => plain_segment (fst e) = true /\ well_named (snd e)) files ->
    well_named (FsDir files).
#[local] Set Elimination Schemes.

(** [names] leads from [node] down to something that is not a directory. *)
Fixpoint file_at (node : FsNode) (names : list jsstring) : Prop :=
  match names with
  | [] => node = FsFile
  | name :: names' =>
      match node with
      | FsDir files => exists child, In (name, child) files /\ file_at child names'
      | FsFile => False
      end
  end.

(** [r] is the path of a document below [node], behind the names [pre]:
    the names that lead to a file, none of them [.git], the last ending
    in [.qmd], joined by slashes, with every backslash turned into a
    slash. *)
Definition listed (node : FsNode) (pre : list jsstring) (r : jsstring) : Prop :=
  exists names,
    file_at node names
    /\ ~ In (js ".git") names
    /\ ends_with (js ".qmd") (last names []) = true
    /\ r = backslashes_to_slashes (Path.join_slash (pre ++ names)).

(** The directory of the clones, line 11 of the routes. *)
Definition REPOS_DIR (proc : Process) : jsstring :=
  Path.join [__dirname proc; js "../../repos"].

(** [path.join(REPOS_DIR, repo.full_name)] of lines 91 and 156, for
    the name that line 52 has stored. *)
Definition projectDir_of (proc : Process) (pathname : jsstring) : jsstring :=
  Path.join [REPOS_DIR proc; full_name pathname].

(** The values of the direct children of a paragraph, one after the
    other. *)
Definition child_values (children : list MdNode) : jsstring :=
  List.concat (List.map (fun child => or_empty (md_value child)) children).

(** A checked-out repository and where it lies. *)
Definition repo_dir : jsstring := js "/srv/repos/user/repo".
Definition repo_tree : FsNode :=
  FsDir [(js ".git", FsDir [(js "index.qmd", FsFile)]);
         (js "index.qmd", FsFile);
         (js "docs", FsDir [(js "a.qmd", FsFile); (js "notes.txt", FsFile)])].

(* ===================================================================== *)
(** ** gray-matter: [matter(str)] without options *)
(* ===================================================================== *)

Module GrayMatter.

(** [opts.delimiters[0]], and the closing delimiter behind a line feed. *)
Definition open_delimiter : jsstring := js "---".
Definition close_delimiter : jsstring := 10%N :: js "---".

(** A byte order mark at the head of the input is taken off. *)
Definition strip_bom (s : jsstring) : jsstring :=
  match s with
  | c :: s' => if (c =? 65279)%N then s' else s
  | [] => s
  end.

(** [str.indexOf(needle)] *)
Fixpoint indexOf (needle s : jsstring) : option nat :=
  if starts_with needle s then Some 0
  else
    match s with
    | [] => None
    | _ :: s' => option_map S (indexOf needle s')
    end.

(** [str.search] for a line feed that may follow a carriage return. *)
Fixpoint search_line_break (s : jsstring) : option nat :=
  match s with
  | [] => None
  | c :: s' =>
      if (c =? 10)%N then Some 0
      else if (c =? 13)%N && starts_with [10%N] s' then Some 0
      else option_map S (search_line_break s')
  end.

(** [str.trim()] *)
Fixpoint trim_start (s : jsstring) : jsstring :=
  match s with
  | c :: s' => if is_white_space c then trim_start s' else s
  | [] => []
  end.
Definition trim (s : jsstring) : jsstring :=
  rev (trim_start (rev (trim_start s))).

(** [matter.language(str)]: what stands on the line of the opening
    delimiter, as it is and trimmed.  Without a line break, [search]
    gives -1 and [slice(0, -1)] leaves the last character out. *)
Definition language (str : jsstring) : jsstring * jsstring :=
  let str :=
    if starts_with open_delimiter str
    then skipn (List.length open_delimiter) str else str in
  let raw :=
    match search_line_break str with
    | Some i => firstn i str
    | None => firstn (List.length str - 1) str
    end in
  (raw, trim raw).

(** The content loses one carriage return and then one line feed at its
    head. *)
Definition drop_line_break (content : jsstring) : jsstring :=
  let content :=
    match content with
    | c :: s => if (c =? 13)%N then s else content
    | [] => []
    end in
  match content with
  | c :: s => if (c =? 10)%N then s else content
  | [] => []
  end.

Section Matter.

(** The data of a file: the empty object, and [file.data] for a raw
    block in a language, which is the empty object for a block of white
    space and comments and otherwise what the engine of the language
    makes of the block; the engine may throw.  [cache] is what
    [matter.cache] holds, by content, when [matter] is called. *)
Variables Yaml Err : Type.
Variable empty_data : Yaml.
Variable file_data : jsstring -> jsstring -> outcome Err Yaml.
Variable cache : jsstring -> option (Yaml * jsstring).

(** [parseMatter(file)]: data and content. *)
Definition parseMatter (content : jsstring) : outcome Err (Yaml * jsstring) :=
  if negb (starts_with open_delimiter content) then Returned (empty_data, content)
  else if starts_with [45%N] (skipn (List.length open_delimiter) content)
  then Returned (empty_data, content)
  else
    let str := skipn (List.length open_delimiter) content in
    let len := List.length str in
    let (raw, name) := language str in
    let file_language := if eqb name [] then js "yaml" else name in
    let str := if eqb name [] then str else skipn (List.length raw) str in
    let closeIndex :=
      match indexOf close_delimiter str with
      | Some i => i
      | None => len
      end in
    let file_matter := firstn closeIndex str in
    match file_data file_language file_matter with
    | Returned data =>
        Returned
          (data,
           if closeIndex =? len then []
           else drop_line_break
                  (skipn (closeIndex + List.length close_delimiter) str))
    | Thrown e => Thrown e
    | Diverged => Diverged
    end.

(** [matter(input)]: the empty input has no data; a content that is in
    the cache gives what the cache holds. *)
Definition matter (input : jsstring) : outcome Err (Yaml * jsstring) :=
  if eqb input [] then Returned (empty_data, [])
  else
    let content := strip_bom input in
    match cache content with
    | Some file => Returned file
    | None => parseMatter content
    end.


End Matter.

End GrayMatter.




(* ===================================================================== *)
(** * Properties *)
(* ===================================================================== *)

(* --------------------------------------------------------------------- *)
(** ** The definitions on small inputs *)
(* --------------------------------------------------------------------- *)

Example exec_finds_first_marker :
  exec commentSpanRegex (jsq "Hello [world]{.comment ref='c1'}") 0
  = (Some (mkMatch 6 [js "world"; js ".comment"; js "c1"] 32), 32).
Proof. reflexivity. Qed.

Example exec_behind_the_marker :
  exec commentSpanRegex (jsq "Hello [world]{.comment ref='c1'}") 7 = (None, 0).
Proof. reflexivity. Qed.

Example scan_plain_text :
  scan_text (js "no marker [here]") [] = Done [plain (js "no marker [here]")].
Proof. reflexivity. Qed.

Example scan_empty_text : scan_text [] [] = Done [].
Proof. reflexivity. Qed.

Example scan_adjacent_markers :
  scan_text (jsq "[a]{.comment ref='1'}[b]{.comment ref='2'}") []
  = Done [commented (js "a") (js "1"); commented (js "b") (js "2")].
Proof. reflexivity. Qed.

Example scan_inner_bracket :
  scan_text (jsq "[[a]{.comment ref='1'}") [] = Done [commented (js "[a") (js "1")].
Proof. reflexivity. Qed.

Example scan_empty_inner_text :
  scan_text (jsq "[]{.comment ref='1'}") [] = Done [plain (jsq "[]{.comment ref='1'}")].
Proof. reflexivity. Qed.

Example scan_appends :
  scan_text (jsq "x[a]{.comment ref='1'}") [plain (js "before")]
  = Done [plain (js "before"); plain (js "x"); commented (js "a") (js "1")].
Proof. reflexivity. Qed.

Example join_goes_up :
  Path.join [js "/srv/app/backend/test"; js "../cache"] = js "/srv/app/backend/cache".
Proof. reflexivity. Qed.

Example join_skips_empty_and_dot :
  Path.join [js "a"; js ""; js "./b/"; js "c//d"] = js "a/b/c/d".
Proof. reflexivity. Qed.

Example normalize_relative :
  Path.normalize (js "a//b/../../../c/") = js "../c/".
Proof. reflexivity. Qed.

Example parse_name_examples :
  Path.parse_name (js "doc.qmd") = js "doc"
  /\ Path.parse_name (js "chapters/intro.draft.qmd") = js "intro.draft"
  /\ Path.parse_name (js ".gitignore") = js ".gitignore"
  /\ Path.parse_name (js "notes/") = js "notes"
  /\ Path.parse_name (js "../..") = js "..".
Proof. repeat split. Qed.

(** The first vectors of the test suite of RFC 1321, and the document of
    the integration test. *)
Example md5_test_suite :
  Crypto.digest_hex (Crypto.update Crypto.createHash_md5 (js ""))
  = js "d41d8cd98f00b204e9800998ecf8427e"
  /\ Crypto.digest_hex (Crypto.update Crypto.createHash_md5 (js "a"))
     = js "0cc175b9c0f1b6a831c399e269772661"
  /\ Crypto.digest_hex (Crypto.update Crypto.createHash_md5 (js "abc"))
     = js "900150983cd24fb0d6963f7d28e17f72"
  /\ Crypto.digest_hex (Crypto.update Crypto.createHash_md5 (js "message digest"))
     = js "f96b697d7cb7938d525a2f31aaf161d0"
  /\ Crypto.digest_hex
       (Crypto.update Crypto.createHash_md5
          (js "12345678901234567890123456789012345678901234567890123456789012345678901234567890"))
     = js "57edf4a22be3c955ac49da2e2107b67a"
  /\ Crypto.digest_hex (Crypto.update Crypto.createHash_md5 (js "doc.qmd"))
     = js "d01abea3c227ff1eb6a253fc74f4715f".
Proof. repeat split; vm_compute; reflexivity. Qed.

Example paragraph_with_bold_child :
  paragraph_loop unit [md_text (js "a "); md_strong [md_text (js "b")]; md_text (js " c")] []
  = Returned [plain (js "a "); plain []; plain (js " c")].
Proof. reflexivity. Qed.

(* --------------------------------------------------------------------- *)
(** ** Lists of code units *)
(* --------------------------------------------------------------------- *)

Lemma eqb_eq (a b : jsstring) : Js.eqb a b = true <-> a = b.
Proof.
  revert b; induction a as [|x a IH]; intros [|y b]; simpl; try easy.
  rewrite andb_true_iff, N.eqb_eq, IH. split.
  - intros [-> ->]; reflexivity.
  - intros [= -> ->]; auto.
Qed.

Lemma eqb_refl (a : jsstring) : Js.eqb a a = true.
Proof. apply eqb_eq; reflexivity. Qed.

Lemma eqb_neq (a b : jsstring) : Js.eqb a b = false <-> a <> b.
Proof.
  rewrite <- eqb_eq. destruct (Js.eqb a b); split; congruence.
Qed.

Lemma capture_app (run rest : jsstring) : capture (run ++ rest) rest = run.
Proof.
  unfold capture. rewrite length_app, Nat.add_sub.
  rewrite firstn_app, Nat.sub_diag, firstn_all. simpl. apply app_nil_r.
Qed.

(* --------------------------------------------------------------------- *)
(** ** The matcher on the comment-span pattern *)
(* --------------------------------------------------------------------- *)

(** A greedy repetition that succeeds did so after some run of the
    class. *)
Lemma greedy_inv (R : Type) k (cont : jsstring -> option R) s r :
  greedy k cont s = Some r ->
  exists run rest,
    s = run ++ rest /\ forallb (in_class k) run = true /\ cont rest = Some r.
Proof.
  induction s as [|c s IH]; simpl.
  - intros H. exists [], []. auto.
  - destruct (in_class k c) eqn:Hc.
    + destruct (greedy k cont s) as [r'|] eqn:Hg.
      * intros [= <-]. destruct (IH eq_refl) as (run & rest & -> & Hrun & Hk).
        exists (c :: run), rest. simpl. rewrite Hc, Hrun. auto.
      * intros H. exists [], (c :: s). auto.
    + intros H. exists [], (c :: s). auto.
Qed.

(** When the continuation cannot start with a character of the class,
    the repetition takes the whole run in front of the first character
    outside the class. *)
Lemma greedy_run (R : Type) k (cont : jsstring -> option R) run rest :
  forallb (in_class k) run = true ->
  (forall c s, in_class k c = true -> cont (c :: s) = None) ->
  match rest with [] => True | c :: _ => in_class k c = false end ->
  greedy k cont (run ++ rest) = cont rest.
Proof.
  intros Hrun Hcont Hrest. induction run as [|c run IH]; simpl in *.
  - destruct rest as [|c rest]; simpl; [reflexivity|]. rewrite Hrest. reflexivity.
  - apply andb_true_iff in Hrun as [Hc Hrun]. rewrite Hc, (IH Hrun).
    destruct (cont rest) eqn:E; [reflexivity|]. apply Hcont, Hc.
Qed.

Lemma commentSpanRegex_items :
  commentSpanRegex =
  [Chr (Lit 91); GroupOpen; Plus (NotLit 93); GroupClose; Chr (Lit 93);
   Chr (Lit 123); GroupOpen; Chr AnyChar;
   Chr (Lit 99); Chr (Lit 111); Chr (Lit 109); Chr (Lit 109);
   Chr (Lit 101); Chr (Lit 110); Chr (Lit 116); GroupClose;
   Plus WhiteSpace;
   Chr (Lit 114); Chr (Lit 101); Chr (Lit 102); Chr (Lit 61); Chr (Lit 34);
   GroupOpen; Plus (NotLit 34); GroupClose; Chr (Lit 34); Chr (Lit 125)].
Proof. reflexivity. Qed.

Lemma white_not_r c : is_white_space c = true -> (c =? 114)%N = false.
Proof.
  intros H. destruct (N.eqb_spec c 114) as [->|]; [discriminate H|reflexivity].
Qed.

Ltac match_step H :=
  match type of H with
  | match ?s with [] => None | _ :: _ => _ end = Some _ =>
      destruct s as [|? ?]; [discriminate H|]
  | (if (?c =? ?d)%N then _ else None) = Some _ =>
      destruct (N.eqb_spec c d); [subst c|discriminate H]
  | (if ?b then _ else None) = Some _ =>
      let E := fresh "E" in destruct b eqn:E; [|discriminate H]
  end.

Lemma matched_text_cons x i0 inner w0 ws d0 id rest :
  91%N :: i0 :: inner ++ 93%N :: 123%N :: x :: 99%N :: 111%N :: 109%N :: 109%N
    :: 101%N :: 110%N :: 116%N :: w0 :: ws ++ 114%N :: 101%N :: 102%N :: 61%N
    :: 34%N :: d0 :: id ++ 34%N :: 125%N :: rest
  = matched_text x (i0 :: inner) (w0 :: ws) (d0 :: id) ++ rest.
Proof.
  unfold matched_text. cbn. repeat (rewrite <- app_assoc; cbn [app]).
  reflexivity.
Qed.

Lemma match_items_sound s caps rest :
  match_items commentSpanRegex s [] [] = Some (caps, rest) ->
  exists x inner ws id,
    s = matched_text x inner ws id ++ rest
    /\ caps = [inner; x :: js "comment"; id]
    /\ is_line_terminator x = false
    /\ inner <> [] /\ forallb (in_class (NotLit 93)) inner = true
    /\ ws <> [] /\ forallb is_white_space ws = true
    /\ id <> [] /\ forallb (in_class (NotLit 34)) id = true.
Proof.
  rewrite commentSpanRegex_items. cbn [match_items in_class].
  intros H.
  repeat match_step H.
  apply greedy_inv in H as (run1 & r1 & -> & Hrun1 & H).
  cbn [match_items in_class app] in H.
  repeat match_step H.
  apply greedy_inv in H as (run2 & r2 & -> & Hrun2 & H).
  cbn [match_items in_class app] in H.
  repeat match_step H.
  apply greedy_inv in H as (run3 & r3 & -> & Hrun3 & H).
  cbn [match_items in_class app] in H.
  repeat match_step H.
  injection H as <- <-.
  do 4 eexists. split; [apply matched_text_cons|].
  cbn [forallb in_class] in *. rewrite E, E1, E2, Hrun1, Hrun3.
  apply negb_true_iff in E0.
  repeat split; try discriminate; try assumption.
  cbn [app]. f_equal; [|f_equal; [|f_equal]].
  - apply (capture_app (_ :: _)).
  - apply (capture_app [_; _; _; _; _; _; _; _]).
  - apply (capture_app (_ :: _)).
Qed.

Lemma match_items_complete x inner ws id rest :
  is_line_terminator x = false ->
  inner <> [] -> forallb (in_class (NotLit 93)) inner = true ->
  ws <> [] -> forallb is_white_space ws = true ->
  id <> [] -> forallb (in_class (NotLit 34)) id = true ->
  match_items commentSpanRegex (matched_text x inner ws id ++ rest) [] []
  = Some ([inner; x :: js "comment"; id], rest).
Proof.
  intros Hx Hi Hinner Hw Hws Hd Hid.
  destruct inner as [|i0 inner]; [congruence|].
  destruct ws as [|w0 ws]; [congruence|].
  destruct id as [|d0 id]; [congruence|].
  rewrite <- matched_text_cons, commentSpanRegex_items.
  cbn [forallb in_class] in Hinner, Hws, Hid.
  apply andb_true_iff in Hinner as [Hi0 Hinner].
  apply andb_true_iff in Hws as [Hw0 Hws].
  apply andb_true_iff in Hid as [Hd0 Hid].
  cbn [match_items in_class]. rewrite N.eqb_refl, Hi0.
  rewrite greedy_run; try assumption.
  - cbn [match_items in_class app]. rewrite !N.eqb_refl, Hx, Hw0.
    cbn [negb]. rewrite greedy_run; try assumption.
    + cbn [match_items in_class app]. rewrite !N.eqb_refl, Hd0.
      rewrite greedy_run; try assumption.
      * cbn [match_items in_class app]. rewrite !N.eqb_refl.
        do 2 f_equal. f_equal; [|f_equal; [|f_equal]].
        -- apply (capture_app (_ :: _)).
        -- apply (capture_app [_; _; _; _; _; _; _; _]).
        -- apply (capture_app (_ :: _)).
      * intros c s Hc. cbn [match_items in_class] in *.
        apply negb_true_iff in Hc. rewrite Hc. reflexivity.
      * reflexivity.
    + intros c s Hc. cbn [match_items in_class] in *.
      rewrite (white_not_r _ Hc). reflexivity.
    + reflexivity.
  - intros c s Hc. cbn [match_items in_class] in *.
    apply negb_true_iff in Hc. rewrite Hc. reflexivity.
  - reflexivity.
Qed.

(* --------------------------------------------------------------------- *)
(** ** Searching from [lastIndex] *)
(* --------------------------------------------------------------------- *)

Lemma search_none p s i :
  search p s i = None ->
  forall j, j <= List.length s -> match_items p (skipn j s) [] [] = None.
Proof.
  revert i; induction s as [|c s IH]; intros i; simpl.
  - destruct (match_items p [] [] []) as [[caps rest]|] eqn:E; [discriminate|].
    intros _ j Hj. replace j with 0 by lia. exact E.
  - destruct (match_items p (c :: s) [] []) as [[caps rest]|] eqn:E; [discriminate|].
    intros H [|j] Hj; [exact E|]. simpl. apply (IH _ H). lia.
Qed.

Lemma search_some p s i m :
  search p s i = Some m ->
  exists j caps rest,
    j <= List.length s
    /\ (forall j', j' < j -> match_items p (skipn j' s) [] [] = None)
    /\ match_items p (skipn j s) [] [] = Some (caps, rest)
    /\ m = mkMatch (i + j) caps
                   (i + j + (List.length (skipn j s) - List.length rest)).
Proof.
  revert i; induction s as [|c s IH]; intros i; simpl.
  - destruct (match_items p [] [] []) as [[caps rest]|] eqn:E; [|discriminate].
    intros [= <-]. exists 0, caps, rest. simpl.
    rewrite !Nat.add_0_r. repeat split; auto. intros j' Hj'; lia.
  - destruct (match_items p (c :: s) [] []) as [[caps rest]|] eqn:E.
    + intros [= <-]. exists 0, caps, rest. simpl.
      rewrite !Nat.add_0_r. repeat split; auto; try lia.
    + intros H. destruct (IH _ H) as (j & caps & rest & Hj & Hmin & Hm & ->).
      exists (S j), caps, rest. simpl. repeat split; auto; try lia.
      * intros [|j'] Hj'; [exact E|]. simpl. apply Hmin. lia.
      * f_equal; lia.
Qed.

(* --------------------------------------------------------------------- *)
(** ** The loop of the span-detection pass *)
(* --------------------------------------------------------------------- *)

Lemma matched_text_length x inner ws id :
  0 < List.length (matched_text x inner ws id).
Proof. unfold matched_text. simpl. lia. Qed.

Lemma plain_opt_nonempty (s : jsstring) : s <> [] -> plain_opt s = [plain s].
Proof. destruct s; [congruence|reflexivity]. Qed.

(** With fuel for every index that is left, the loop ends, and what it
    appends is what [Scanned] describes. *)
Lemma span_loop_scanned fuel : forall textValue lastIndex paragraphContent,
  lastIndex <= List.length textValue ->
  List.length textValue - lastIndex < fuel ->
  exists l,
    span_loop fuel textValue lastIndex paragraphContent = Done (paragraphContent ++ l)
    /\ Scanned (skipn lastIndex textValue) l.
Proof.
  induction fuel as [|fuel IH]; intros t i acc Hi Hfuel; [lia|].
  simpl. unfold exec.
  destruct (Nat.ltb_spec (List.length t) i) as [Hlt|_]; [lia|].
  set (s := skipn i t).
  assert (Hlen : List.length s = List.length t - i) by apply length_skipn.
  destruct (search commentSpanRegex s i) as [m|] eqn:Hs.
  - destruct (search_some _ _ _ Hs) as (j & caps & rest & Hj & Hmin & Hm & ->).
    destruct (match_items_sound _ Hm)
      as (x & inner & ws & id & Hsk & -> & Hx & Hin & Hinner & Hw & Hws & Hd & Hid).
    cbn [index endIndex captures nth].
    pose proof (matched_text_length x inner ws id) as Hpos.
    assert (Hsplit : s = firstn j s ++ matched_text x inner ws id ++ rest).
    { rewrite <- Hsk. symmetry. apply firstn_skipn. }
    assert (Hrest : List.length (skipn j s) - List.length rest
                    = List.length (matched_text x inner ws id)).
    { rewrite Hsk, length_app. lia. }
    assert (Hjlen : List.length (skipn j s)
                    = List.length (matched_text x inner ws id) + List.length rest).
    { rewrite Hsk, length_app. reflexivity. }
    rewrite length_skipn in Hjlen.
    rewrite Hrest.
    set (e := i + j + List.length (matched_text x inner ws id)).
    assert (He : skipn e t = rest).
    { unfold e. rewrite <- Nat.add_assoc, (Nat.add_comm i), <- skipn_skipn.
      fold s. rewrite Nat.add_comm, <- skipn_skipn, Hsk.
      rewrite skipn_app, skipn_all, Nat.sub_diag. reflexivity. }
    assert (He1 : e <= List.length t) by (unfold e; lia).
    assert (He2 : List.length t - e < fuel) by (unfold e; lia).
    destruct (IH t e
                ((if i <? i + j
                  then acc ++ [plain (substring t i (i + j))] else acc)
                   ++ [commented inner id])
                He1 He2) as (l & Hl & HS).
    exists (plain_opt (firstn j s) ++ commented inner id :: l). split.
    + rewrite Hl. f_equal. rewrite <- !app_assoc. simpl.
      destruct (Nat.ltb_spec i (i + j)) as [Hij|Hij].
      * rewrite plain_opt_nonempty.
        -- unfold substring. fold s. replace (i + j - i) with j by lia.
           rewrite <- app_assoc. reflexivity.
        -- intros E. apply (f_equal (@List.length _)) in E.
           rewrite length_firstn in E. simpl in E. lia.
      * replace j with 0 by lia. reflexivity.
    + rewrite He in HS.
      eapply Scanned_hit; eauto.
      intros j' Hj'. apply Hmin. rewrite length_firstn in Hj'. lia.
  - pose proof (search_none _ _ _ Hs) as Hnone.
    exists (plain_opt s). split.
    + f_equal. destruct (Nat.ltb_spec i (List.length t)) as [Hit|Hit].
      * rewrite plain_opt_nonempty; [reflexivity|].
        intros E. rewrite E in Hlen. simpl in Hlen. lia.
      * destruct s; [rewrite app_nil_r; reflexivity|simpl in Hlen; lia].
    + apply Scanned_end, Hnone.
Qed.

Lemma span_loop_acc fuel : forall textValue lastIndex paragraphContent,
  span_loop fuel textValue lastIndex paragraphContent
  = match span_loop fuel textValue lastIndex [] with
    | Done l => Done (paragraphContent ++ l)
    | OutOfFuel => OutOfFuel
    end.
Proof.
  induction fuel as [|fuel IH]; intros t i acc; [reflexivity|].
  simpl. destruct (exec commentSpanRegex t i) as [[m|] e].
  - rewrite IH. symmetry. rewrite IH. symmetry.
    destruct (span_loop fuel t e []) as [l|]; [|reflexivity].
    f_equal. destruct (i <? index m); simpl; rewrite <- !app_assoc; reflexivity.
  - f_equal. destruct (i <? List.length t); simpl; auto using app_nil_r.
Qed.

Lemma scan_text_scanned textValue paragraphContent :
  exists l,
    scan_text textValue paragraphContent = Done (paragraphContent ++ l)
    /\ scan_text textValue [] = Done l
    /\ Scanned textValue l.
Proof.
  unfold scan_text.
  destruct (@span_loop_scanned (S (List.length textValue)) textValue 0 [])
    as (l & Hl & HS); [lia|lia|].
  exists l. rewrite span_loop_acc, Hl. auto.
Qed.

(** The pass always ends. *)
Lemma scan_text_total textValue paragraphContent :
  exists l, scan_text textValue paragraphContent = Done l.
Proof.
  destruct (scan_text_scanned textValue paragraphContent) as (l & H & _).
  eauto.
Qed.

Lemma plain_opt_text (s : jsstring) :
  Forall (fun n => text n <> []) (plain_opt s)
  /\ List.concat (List.map text (plain_opt s)) = s.
Proof.
  destruct s as [|c s]; simpl; split; auto.
  - constructor; [discriminate|constructor].
  - f_equal. apply app_nil_r.
Qed.

(** No segment the loop emits is empty. *)
Lemma Scanned_nonempty s l : Scanned s l -> Forall (fun n => text n <> []) l.
Proof.
  induction 1.
  - apply plain_opt_text.
  - apply Forall_app; split; [apply plain_opt_text|]. constructor; auto.
Qed.

(* --------------------------------------------------------------------- *)
(** ** Matches of the pattern and markers of the specification *)
(* --------------------------------------------------------------------- *)

Lemma forallb_Forall_not (d : N) (s : jsstring) :
  forallb (in_class (NotLit d)) s = true <-> Forall (fun c => c <> d) s.
Proof.
  rewrite forallb_forall, Forall_forall. simpl.
  split; intros H c Hc; specialize (H c Hc).
  - apply negb_true_iff, N.eqb_neq in H. exact H.
  - apply negb_true_iff, N.eqb_neq. exact H.
Qed.

Lemma forallb_Forall_white (s : jsstring) :
  forallb is_white_space s = true <-> Forall (fun c => is_white_space c = true) s.
Proof. rewrite forallb_forall, Forall_forall. reflexivity. Qed.

Lemma marker_text_matched inner ws id :
  marker_text inner ws id = matched_text 46 inner ws id.
Proof. reflexivity. Qed.

(** A marker is matched by the pattern. *)
Lemma marker_matches m inner id ws rest :
  is_marker m inner id ws ->
  match_items commentSpanRegex (m ++ rest) [] []
  = Some ([inner; js ".comment"; id], rest).
Proof.
  intros [-> Hi Hinner Hw Hws Hd Hid]. rewrite marker_text_matched.
  apply match_items_complete; auto.
  - apply forallb_Forall_not; assumption.
  - apply forallb_Forall_white; assumption.
  - apply forallb_Forall_not; assumption.
Qed.

Lemma class_is_dotted_app (a b : jsstring) :
  class_is_dotted (a ++ b) = true -> class_is_dotted b = true.
Proof.
  induction a as [|c a IH]; [auto|].
  change ((c :: a) ++ b) with (c :: (a ++ b)).
  cbn [class_is_dotted]. intros H. apply andb_true_iff in H as [_ H]. auto.
Qed.

Lemma class_is_dotted_matched x inner ws id rest :
  class_is_dotted (matched_text x inner ws id ++ rest) = true -> x = 46%N.
Proof.
  unfold matched_text. rewrite <- !app_assoc. intros H.
  change ([91%N] ++ inner ++ ?t) with ((91%N :: inner) ++ t) in H.
  apply class_is_dotted_app in H. cbn in H.
  apply andb_true_iff in H as [H _]. apply N.eqb_eq in H. exact H.
Qed.

Lemma marker_starts_matches s i :
  marker_starts_at s i ->
  i <= List.length s
  /\ exists caps rest, match_items commentSpanRegex (skipn i s) [] [] = Some (caps, rest).
Proof.
  intros (m & inner & id & ws & rest & Hm & Hi & Hs). split; [exact Hi|].
  rewrite Hs. erewrite marker_matches by eassumption. eauto.
Qed.

(** On a text in which the class is always written with its dot, what
    the loop does is the segmentation of the specification. *)
Lemma Scanned_Segments s l :
  Scanned s l -> class_is_dotted s = true -> Segments s l.
Proof.
  induction 1 as [s Hnone | s pre x inner ws id rest l Hs Hx Hi Hinner Hw Hws
                             Hd Hid Hmin HS IH]; intros Hdot.
  - apply Segments_plain. intros i Hm.
    apply marker_starts_matches in Hm as (Hi & caps & rest & Hm).
    rewrite (Hnone i Hi) in Hm. discriminate.
  - subst s. pose proof (class_is_dotted_app _ _ Hdot) as Hdot'.
    pose proof (class_is_dotted_matched _ _ _ _ _ Hdot') as ->.
    apply (@Segments_marker _ pre (marker_text inner ws id) inner id ws rest l).
    + reflexivity.
    + constructor; auto.
      * apply forallb_Forall_not; assumption.
      * apply forallb_Forall_white; assumption.
      * apply forallb_Forall_not; assumption.
    + intros i Hlt Hm.
      apply marker_starts_matches in Hm as (_ & caps & rest' & Hm).
      rewrite (Hmin i Hlt) in Hm. discriminate.
    + apply IH. eapply class_is_dotted_app. exact Hdot'.
Qed.

Lemma skipn_length_app (A : Type) (a b : list A) :
  skipn (List.length a) (a ++ b) = b.
Proof. rewrite skipn_app, skipn_all, Nat.sub_diag. reflexivity. Qed.

Lemma marker_starts_here pre m inner id ws post :
  is_marker m inner id ws ->
  marker_starts_at (pre ++ m ++ post) (List.length pre).
Proof.
  intros Hm. exists m, inner, id, ws, post. split; [exact Hm|]. split.
  - rewrite length_app. lia.
  - apply skipn_length_app.
Qed.

(** A text has one segmentation. *)
Lemma Segments_functional s l1 :
  Segments s l1 -> forall l2, Segments s l2 -> l1 = l2.
Proof.
  induction 1 as [s Hnone | s pre m inner id ws post l Hs Hm Hmin HS IH];
    intros l2 H2.
  - inversion H2 as [s' _ | s' pre m inner id ws post l Hs Hm Hmin HS]; [reflexivity|].
    exfalso. apply (Hnone (List.length pre)).
    rewrite Hs. eapply marker_starts_here; eassumption.
  - pose proof (marker_starts_here pre post Hm) as Hat. rewrite <- Hs in Hat.
    inversion H2 as [s' Hnone | s' pre' m' inner' id' ws' post' l' Hs' Hm' Hmin' HS'].
    + exfalso. exact (Hnone _ Hat).
    + pose proof (marker_starts_here pre' post' Hm') as Hat'. rewrite <- Hs' in Hat'.
      assert (Hlen : List.length pre = List.length pre').
      { destruct (Nat.lt_trichotomy (List.length pre) (List.length pre'))
          as [Hlt|[Heq|Hgt]]; [|exact Heq|].
        - exfalso. exact (Hmin' _ Hlt Hat).
        - exfalso. exact (Hmin _ Hgt Hat'). }
      assert (Hpre : pre = pre').
      { pose proof (f_equal (firstn (List.length pre)) Hs) as E1.
        pose proof (f_equal (firstn (List.length pre)) Hs') as E2.
        rewrite firstn_app, firstn_all, Nat.sub_diag in E1.
        rewrite Hlen, firstn_app, firstn_all, Nat.sub_diag in E2.
        simpl in E1, E2. rewrite app_nil_r in E1, E2. rewrite Hlen in E1.
        congruence. }
      subst pre'. rewrite Hs in Hs'. apply app_inv_head in Hs'.
      pose proof (marker_matches post Hm) as M1.
      pose proof (marker_matches post' Hm') as M2.
      rewrite Hs' in M1. rewrite M1 in M2. injection M2 as -> -> ->.
      f_equal. f_equal. apply IH. exact HS'.
Qed.

(** The segmentation of a text is the result of the pass. *)
Lemma scan_text_Segments textValue :
  class_is_dotted textValue = true ->
  exists l, scan_text textValue [] = Done l /\ Segments textValue l.
Proof.
  intros Hdot. destruct (scan_text_scanned textValue []) as (l & _ & Hl & HS).
  exists l. split; [exact Hl|]. apply Scanned_Segments; assumption.
Qed.

Lemma Segments_Replaced s l :
  Segments s l -> Replaced s (List.concat (List.map text l)).
Proof.
  induction 1 as [s Hnone | s pre m inner id ws post l Hs Hm Hmin HS IH].
  - rewrite (proj2 (plain_opt_text s)). apply Replaced_plain, Hnone.
  - rewrite map_app, concat_app, (proj2 (plain_opt_text pre)). simpl.
    eapply Replaced_marker; eassumption.
Qed.

(** Whatever the text, the pass emits no empty segment. *)
Lemma scan_text_nonempty_segments textValue l :
  scan_text textValue [] = Done l -> Forall (fun n => text n <> []) l.
Proof.
  intros H. destruct (scan_text_scanned textValue []) as (l' & _ & Hl & HS).
  rewrite H in Hl. injection Hl as <-. eapply Scanned_nonempty; eassumption.
Qed.

(** On a text in which the class is always written with its dot, the
    texts of the segments, put together, are the text with every marker
    replaced by its inner text. *)
Lemma scan_text_replaced textValue :
  class_is_dotted textValue = true ->
  exists l, scan_text textValue [] = Done l
            /\ Replaced textValue (List.concat (List.map text l)).
Proof.
  intros Hdot. destruct (scan_text_Segments textValue Hdot) as (l & Hl & HS).
  exists l. split; [exact Hl|]. apply Segments_Replaced, HS.
Qed.

(* --------------------------------------------------------------------- *)
(** ** The span-detection pass and the specification *)
(* --------------------------------------------------------------------- *)

(** C3, as amended.  For a plain-text run in which every class that
    follows a bracketed text is written [.comment], the pass ends and
    emits exactly the segmentation of the run: scanning from the left,
    the text in front of the leftmost marker
    (bracketed non-empty text without closing bracket, then, in braces, the
    class [.comment], one or more white-space characters and [ref=] with a
    quoted non-empty id) is a plain segment when it is not empty, the
    marker's inner text is a segment with the comment mark of the marker's
    id, and the text behind the marker is segmented in the same way.  No
    other list of segments is a segmentation of the run, and the segments
    are appended to what the paragraph already holds. *)
Theorem span_detection_segments textValue :
  class_is_dotted textValue = true ->
  exists l,
    Segments textValue l
    /\ (forall l', Segments textValue l' -> l' = l)
    /\ forall paragraphContent,
         scan_text textValue paragraphContent = Done (paragraphContent ++ l).
Proof.
  intros Hdot. destruct (scan_text_Segments textValue Hdot) as (l & Hl & HS).
  exists l. split; [exact HS|]. split.
  - intros l' HS'. eapply Segments_functional; eassumption.
  - intros acc. destruct (scan_text_scanned textValue acc) as (l' & Hacc & Hl' & _).
    rewrite Hl in Hl'. injection Hl' as <-. exact Hacc.
Qed.

Lemma span_detection_segments_witness :
  class_is_dotted two_markers = true
  /\ exists l,
      Segments two_markers l
      /\ (forall l', Segments two_markers l' -> l' = l)
      /\ forall paragraphContent,
           scan_text two_markers paragraphContent = Done (paragraphContent ++ l).
Proof.
  split; [reflexivity|]. apply (span_detection_segments two_markers). reflexivity.
Defined.

(** C3 does not hold as stated: the pass marks the inner text of
    [tab_marker], which contains no marker of the exact form (with one
    space between the class and [ref]), at any place. *)
Lemma tab_marker_is_marked :
  scan_text tab_marker [] = Done [commented (js "a") (js "c")]
  /\ forall pre inner id post,
       tab_marker <> pre ++ marker_text inner [32%N] id ++ post.
Proof.
  split; [reflexivity|].
  intros pre inner id post E.
  assert (H : In 32%N tab_marker).
  { rewrite E. apply in_or_app. right. apply in_or_app. left.
    unfold marker_text. apply in_or_app. right. apply in_or_app. right.
    apply in_or_app. right. apply in_or_app. right. apply in_or_app. left.
    left. reflexivity. }
  cbv in H. repeat (destruct H as [H|H]; [discriminate H|]). exact H.
Qed.

Lemma marker_has_dot m inner id ws : is_marker m inner id ws -> In 46%N m.
Proof.
  intros [-> _ _ _ _ _ _]. unfold marker_text.
  apply in_or_app. right. apply in_or_app. right. apply in_or_app. right.
  apply in_or_app. left. left. reflexivity.
Qed.

Lemma In_skipn (A : Type) (x : A) n (l : list A) : In x (skipn n l) -> In x l.
Proof.
  intros H. rewrite <- (firstn_skipn n l). apply in_or_app. right. exact H.
Qed.

(** C10 against the code: [xcomment_text] holds no marker, so the claim
    asks for segments whose texts make up the whole of it; the pass emits
    the single segment [a], marked with the id [c], and the other twenty
    characters are gone. *)
Theorem xcomment_text_is_stripped :
  (forall i, ~ marker_starts_at xcomment_text i)
  /\ Replaced xcomment_text xcomment_text
  /\ scan_text xcomment_text [] = Done [commented (js "a") (js "c")]
  /\ List.concat (List.map text [commented (js "a") (js "c")]) = js "a"
  /\ js "a" <> xcomment_text.
Proof.
  assert (Hnone : forall i, ~ marker_starts_at xcomment_text i).
  { intros i (m & inner & id & ws & rest & Hm & _ & Hs).
    assert (H : In 46%N xcomment_text).
    { apply (@In_skipn _ _ i). rewrite Hs. apply in_or_app. left.
      eapply marker_has_dot; eassumption. }
    cbv in H. repeat (destruct H as [H|H]; [discriminate H|]). exact H. }
  split; [exact Hnone|]. split; [apply Replaced_plain, Hnone|].
  split; [reflexivity|]. split; [reflexivity|]. discriminate.
Qed.

(* --------------------------------------------------------------------- *)
(** ** The block loop *)
(* --------------------------------------------------------------------- *)

Section ParserProperties.

Variables Yaml Comments Err : Type.
Variable extractCommentsAppendix : jsstring -> outcome Err (Comments * jsstring).
Variable matter : jsstring -> outcome Err (Yaml * jsstring).
Variable remark_parse : jsstring -> outcome Err MdNode.
Variable renderChunk : Trace -> option jsstring -> jsstring -> outcome Err jsstring.

Local Abbreviation run_block := (block renderChunk).
Local Abbreviation run_loop := (block_loop renderChunk).
Local Abbreviation parse :=
  (qmdToProseMirror extractCommentsAppendix matter remark_parse renderChunk).

Lemma block_loop_cons node rest acc t :
  run_loop (node :: rest) acc t
  = match run_block node t with
    | (Returned pushed, t') => run_loop rest (acc ++ pushed) t'
    | (Thrown e, t') => (Thrown e, t')
    | (Diverged, t') => (Diverged, t')
    end.
Proof.
  simpl. unfold bind. destruct (run_block node t) as [[pushed|e|] t']; reflexivity.
Qed.

Lemma block_loop_app before after : forall acc t,
  run_loop (before ++ after) acc t
  = match run_loop before acc t with
    | (Returned nodes, t') => run_loop after nodes t'
    | (Thrown e, t') => (Thrown e, t')
    | (Diverged, t') => (Diverged, t')
    end.
Proof.
  induction before as [|node before IH]; intros acc t; [reflexivity|].
  rewrite <- app_comm_cons, !block_loop_cons.
  destruct (run_block node t) as [[pushed|e|] t']; auto.
Qed.

(** A block that is not a chunk makes no call. *)
Lemma block_not_chunk node t :
  is_chunk node = false -> run_block node t = (markdown_node Err node, t).
Proof. unfold block. intros ->. reflexivity. Qed.

(** A block that is no chunk, heading or paragraph pushes nothing, makes
    no call and does not fail. *)
Lemma block_unhandled node t :
  handled node = false -> run_block node t = (Returned [], t).
Proof.
  unfold handled. intros H.
  apply orb_false_iff in H as [H Hp]. apply orb_false_iff in H as [Hc Hh].
  rewrite (block_not_chunk _ _ Hc). unfold markdown_node.
  rewrite Hh, Hp. reflexivity.
Qed.

(** What a block pushes when it returns: its node if it is handled,
    nothing otherwise. *)
Lemma block_returns node t pushed t' :
  run_block node t = (Returned pushed, t') ->
  if handled node then exists out, pushed = [out] /\ node_of Err node out
  else pushed = [].
Proof.
  unfold handled, node_of, block.
  destruct (is_chunk node) eqn:Hc; simpl.
  - unfold bind, await_renderChunk, ret.
    destruct (renderChunk t (md_value node) (or_empty (md_lang node)))
      as [html|e|]; intros [= <- <-]. eauto.
  - unfold lift, markdown_node.
    destruct (md_type node =? "heading")%string; simpl.
    + intros [= <- <-]. eauto.
    + destruct (md_type node =? "paragraph")%string.
      * destruct (md_children node) as [children|]; [|discriminate].
        destruct (paragraph_loop Err children []) as [pc|e|] eqn:Hp;
          intros [= <- <-].
        exists (Paragraph pc). split; [reflexivity|]. eauto.
      * intros [= <- <-]. reflexivity.
Qed.

(** The nodes pushed by the loop are the nodes of the handled blocks,
    one for each, in the order of the blocks. *)
Lemma block_loop_returns children : forall acc t nodes t',
  run_loop children acc t = (Returned nodes, t') ->
  exists pushed,
    nodes = acc ++ pushed
    /\ Forall2 (node_of Err) (filter handled children) pushed.
Proof.
  induction children as [|node children IH]; intros acc t nodes t'.
  - intros [= <- <-]. exists []. rewrite app_nil_r. split; [reflexivity|constructor].
  - rewrite block_loop_cons.
    destruct (run_block node t) as [[pushed|e|] t1] eqn:Hb; try discriminate.
    intros H. apply IH in H as (more & -> & Hmore).
    apply block_returns in Hb. simpl.
    destruct (handled node).
    + destruct Hb as (out & -> & Hout). exists (out :: more).
      rewrite <- app_assoc. split; [reflexivity|]. constructor; assumption.
    + subst pushed. exists more. rewrite app_nil_r. split; [reflexivity|assumption].
Qed.

(** A call that returns went through each of its steps. *)
Lemma qmdToProseMirror_returns qmdString t r t' :
  parse qmdString t = (Returned r, t') ->
  exists remainingQmdString markdown tree children,
    extractCommentsAppendix qmdString = Returned (comments r, remainingQmdString)
    /\ matter remainingQmdString
       = Returned (attrs_yaml (prosemirrorJson r), markdown)
    /\ remark_parse markdown = Returned tree
    /\ md_children tree = Some children
    /\ run_loop children [] t = (Returned (content (prosemirrorJson r)), t').
Proof.
  unfold qmdToProseMirror, bind, lift, ret, throw.
  destruct (extractCommentsAppendix qmdString) as [[cm rem]|e|] eqn:Hx; try discriminate.
  destruct (matter rem) as [[y md]|e|] eqn:Hy; try discriminate.
  destruct (remark_parse md) as [tree|e|] eqn:Hr; try discriminate.
  destruct (md_children tree) as [children|] eqn:Hc; try discriminate.
  destruct (block_loop renderChunk children [] t) as [[nodes|e|] t1] eqn:Hb;
    try discriminate.
  intros [= <- <-]. simpl. exists rem, md, tree, children. repeat split; auto.
Qed.

Lemma block_loop_erase node before after acc t :
  handled node = false ->
  run_loop (before ++ node :: after) acc t = run_loop (before ++ after) acc t.
Proof.
  intros H. rewrite !block_loop_app.
  destruct (run_loop before acc t) as [[nodes|e|] t1]; auto.
  rewrite block_loop_cons, (block_unhandled _ _ H), app_nil_r. reflexivity.
Qed.

Lemma paragraph_loop_total children : forall paragraphContent,
  forallb text_has_value children = true ->
  exists content, paragraph_loop Err children paragraphContent = Returned content.
Proof.
  induction children as [|child children IH]; intros acc H; simpl; [eauto|].
  simpl in H. apply andb_true_iff in H as [Hc H]. unfold text_has_value in Hc.
  destruct (md_type child =? "text")%string; [|auto].
  destruct (md_value child) as [textValue|]; [|discriminate].
  destruct (scan_text_total textValue acc) as (l & ->). simpl. auto.
Qed.

(** On a well-formed block the parser returns as soon as the renderer
    does. *)
Lemma block_total node t :
  well_formed node = true ->
  (forall code chunkOptions, exists html, renderChunk t code chunkOptions = Returned html) ->
  exists pushed t', run_block node t = (Returned pushed, t').
Proof.
  intros Hwf Hrender. unfold block.
  destruct (is_chunk node).
  - unfold bind, await_renderChunk, ret.
    destruct (Hrender (md_value node) (or_empty (md_lang node))) as (html & ->).
    eauto.
  - unfold lift, markdown_node. unfold well_formed in Hwf.
    destruct (md_type node =? "heading")%string; [eauto|].
    destruct (md_type node =? "paragraph")%string; [|eauto].
    destruct (md_children node) as [children|]; [|discriminate].
    destruct (@paragraph_loop_total children [] Hwf) as (content & ->). eauto.
Qed.

Lemma block_loop_total children : forall acc t,
  forallb well_formed children = true ->
  (forall t code chunkOptions, exists html, renderChunk t code chunkOptions = Returned html) ->
  exists nodes t', run_loop children acc t = (Returned nodes, t').
Proof.
  induction children as [|node children IH]; intros acc t Hwf Hrender.
  - simpl. unfold ret. eauto.
  - simpl in Hwf. apply andb_true_iff in Hwf as [Hnode Hwf].
    rewrite block_loop_cons.
    destruct (@block_total node t Hnode (Hrender t)) as (pushed & t1 & ->).
    apply IH; assumption.
Qed.

(** C1, as amended.  Let the collaborators in front of the loop return
    and the syntax tree be well formed.  If every call of the renderer
    returns a value (an error payload written by the renderer is such a
    value), qmdToProseMirror returns a tree with one node for each heading,
    paragraph and chunk, in order.  For each chunk the outcome of the
    renderer's call decides: if the call returns a value, that value is the
    htmlOutput of the chunk's quartoBlock, unchanged, and the parse goes on
    with the blocks behind the chunk; if the call is rejected,
    qmdToProseMirror is rejected with the same error right after the call
    and returns no tree. *)
Theorem renderer_outcome_decides
        qmdString cm remaining yaml markdown tree children t0 :
  extractCommentsAppendix qmdString = Returned (cm, remaining) ->
  matter remaining = Returned (yaml, markdown) ->
  remark_parse markdown = Returned tree ->
  md_children tree = Some children ->
  forallb well_formed children = true ->
  ((forall t code chunkOptions,
       exists html, renderChunk t code chunkOptions = Returned html) ->
   exists nodes t',
     parse qmdString t0 = (Returned (mkResult (mkDoc nodes yaml) cm), t')
     /\ Forall2 (node_of Err) (filter handled children) nodes)
  /\ (forall before node after acc t,
        children = before ++ node :: after ->
        is_chunk node = true ->
        run_loop before [] t0 = (Returned acc, t) ->
        let code := md_value node in
        let chunkOptions := or_empty (md_lang node) in
        (forall htmlOutput,
            renderChunk t code chunkOptions = Returned htmlOutput ->
            parse qmdString t0
            = match run_loop after (acc ++ [QuartoBlock code chunkOptions htmlOutput])
                             (t ++ [(code, chunkOptions)]) with
              | (Returned nodes, t') =>
                  (Returned (mkResult (mkDoc nodes yaml) cm), t')
              | (Thrown e, t') => (Thrown e, t')
              | (Diverged, t') => (Diverged, t')
              end)
        /\ (forall e,
              renderChunk t code chunkOptions = Thrown e ->
              parse qmdString t0 = (Thrown e, t ++ [(code, chunkOptions)]))).
Proof.
  intros Hx Hy Hr Hc Hwf.
  assert (Hparse : parse qmdString t0
                   = match run_loop children [] t0 with
                     | (Returned nodes, t') =>
                         (Returned (mkResult (mkDoc nodes yaml) cm), t')
                     | (Thrown e, t') => (Thrown e, t')
                     | (Diverged, t') => (Diverged, t')
                     end).
  { unfold qmdToProseMirror, bind, lift, ret. rewrite Hx, Hy, Hr, Hc.
    destruct (run_loop children [] t0) as [[nodes|e|] t']; reflexivity. }
  split.
  - intros Hrender.
    destruct (@block_loop_total children [] t0 Hwf Hrender) as (nodes & t' & Hloop).
    exists nodes, t'. rewrite Hparse, Hloop. split; [reflexivity|].
    apply block_loop_returns in Hloop as (pushed & -> & HF). exact HF.
  - intros before node after acc t -> Hchunk Hbefore code chunkOptions.
    rewrite Hparse, block_loop_app, Hbefore, block_loop_cons.
    unfold block. rewrite Hchunk. unfold bind, await_renderChunk, ret.
    fold code chunkOptions.
    split.
    + intros html Hh. rewrite Hh. reflexivity.
    + intros e He. rewrite He. reflexivity.
Qed.

(** C2.  Whenever the collaborators hand the parser the body of the
    scenario and its syntax tree, the tree that is returned has exactly
    two nodes: a heading of level 1 with the text T, then a paragraph whose
    content is the plain text "Hello " followed by the text "world" with a
    comment mark of id c1. *)
Theorem scenario_heading_then_marked_paragraph qmdString cm remaining yaml t :
  extractCommentsAppendix qmdString = Returned (cm, remaining) ->
  matter remaining = Returned (yaml, scenario_body) ->
  remark_parse scenario_body = Returned scenario_tree ->
  parse qmdString t
  = (Returned
       (mkResult
          (mkDoc [Heading (Some 1%N) [plain (js "T")];
                  Paragraph [plain (js "Hello ");
                             commented (js "world") (js "c1")]]
                 yaml)
          cm),
     t).
Proof.
  intros Hx Hy Hr. unfold qmdToProseMirror, bind, lift, ret.
  rewrite Hx, Hy, Hr. reflexivity.
Qed.

(** C7, as amended.  For a heading the parser pushes one heading node,
    without calling the renderer; its level is the depth of the heading
    and its content is one text node holding the values of the heading's
    direct children, put together in order, a child without a value
    counting as the empty string.  When every direct child has a value,
    that text is the plain text of everything in the heading. *)
Theorem heading_level_and_direct_values node t :
  md_type node = "heading"%string ->
  let children := match md_children node with Some cs => cs | None => [] end in
  run_block node t
  = (Returned [Heading (md_depth node)
                       [plain (join_empty (List.map md_value children))]], t)
  /\ (Forall (fun c => md_value c <> None) children ->
      join_empty (List.map md_value children)
      = List.concat (List.map flatten_text children)).
Proof.
  intros Hty children. split.
  - rewrite block_not_chunk by (unfold is_chunk; rewrite Hty; reflexivity).
    unfold markdown_node, heading_text. rewrite Hty. simpl. subst children.
    destruct (md_children node); reflexivity.
  - intros Hall. unfold join_empty. f_equal.
    induction Hall as [|c cs Hc _ IH]; [reflexivity|]. simpl. rewrite IH. f_equal.
    destruct c as [ty d lang [v|] ch]; simpl in *; congruence.
Qed.

(** C8.  In every result of qmdToProseMirror the content lists, in the
    order of the blocks of the syntax tree, one node for each heading,
    paragraph and code block with a language, each the node of its block,
    and nothing else.  A block of any other kind pushes nothing, calls
    nothing and does not fail: the loop runs as if the block were not
    there. *)
Theorem nodes_follow_source_order qmdString t r t' :
  parse qmdString t = (Returned r, t') ->
  (exists remaining markdown tree children,
      extractCommentsAppendix qmdString = Returned (comments r, remaining)
      /\ matter remaining = Returned (attrs_yaml (prosemirrorJson r), markdown)
      /\ remark_parse markdown = Returned tree
      /\ md_children tree = Some children
      /\ Forall2 (node_of Err) (filter handled children)
                 (content (prosemirrorJson r)))
  /\ (forall node t0, handled node = false -> run_block node t0 = (Returned [], t0))
  /\ (forall node before after acc t0,
        handled node = false ->
        run_loop (before ++ node :: after) acc t0 = run_loop (before ++ after) acc t0).
Proof.
  intros H. split; [|split].
  - destruct (qmdToProseMirror_returns _ _ H)
      as (remaining & markdown & tree & children & Hx & Hy & Hr & Hc & Hb).
    exists remaining, markdown, tree, children. repeat split; auto.
    apply block_loop_returns in Hb as (pushed & -> & HF). exact HF.
  - intros node t0. apply block_unhandled.
  - intros node before after acc t0. apply block_loop_erase.
Qed.

(** C9.  A code block whose language is missing or empty pushes no node
    and makes no call of the renderer, whatever has been called before;
    the loop over the blocks gives the same nodes and the same calls as
    without the block, and no node is the node of the block. *)
Theorem untagged_code_block_is_skipped node :
  md_type node = "code"%string ->
  truthy (md_lang node) = false ->
  (forall t, run_block node t = (Returned [], t))
  /\ (forall before after acc t,
        run_loop (before ++ node :: after) acc t = run_loop (before ++ after) acc t)
  /\ (forall out, ~ node_of Err node out).
Proof.
  intros Hty Hlang.
  assert (Hc : is_chunk node = false).
  { unfold is_chunk. rewrite Hlang. apply andb_false_r. }
  assert (Hh : handled node = false).
  { unfold handled. rewrite Hc, Hty. reflexivity. }
  split; [|split].
  - intros t. apply block_unhandled, Hh.
  - intros before after acc t. apply block_loop_erase, Hh.
  - intros out. unfold node_of. rewrite Hc, Hty. simpl. auto.
Qed.

End ParserProperties.

(* --------------------------------------------------------------------- *)
(** ** The parser on the examples *)
(* --------------------------------------------------------------------- *)

(** C1 does not hold as stated: when the renderer's call for the chunk of
    [chunk_tree] is rejected, qmdToProseMirror is rejected with the same
    error after that one call; no tree is returned and the paragraph
    behind the chunk is never reached. *)
Lemma rejected_render_rejects_parse :
  qmdToProseMirror plain_extract no_front_matter chunk_parse rejecting_renderChunk
                   (js "doc") []
  = (Thrown (Raised tt), [(Some (js "plot(x)"), js "r")]).
Proof. reflexivity. Qed.

Lemma renderer_outcome_decides_witness :
  qmdToProseMirror plain_extract no_front_matter chunk_parse payload_renderChunk
                   (js "doc") []
  = (Returned chunk_result, [(Some (js "plot(x)"), js "r")])
  /\ exists nodes t',
      qmdToProseMirror plain_extract no_front_matter chunk_parse payload_renderChunk
                       (js "doc") []
      = (Returned (mkResult (mkDoc nodes tt) []), t')
      /\ Forall2 (node_of unit)
                 [md_heading 2 [md_text (js "Plot")];
                  md_code (Some (js "r")) (js "plot(x)");
                  md_paragraph [md_text (js "after")]]
                 nodes.
Proof.
  pose proof (@renderer_outcome_decides
                unit (list jsstring) unit
                plain_extract no_front_matter chunk_parse payload_renderChunk
                (js "doc") [] (js "doc") tt (js "doc") chunk_tree
                [md_heading 2 [md_text (js "Plot")];
                 md_code (Some (js "r")) (js "plot(x)");
                 md_blockquote [md_paragraph [md_text (js "quoted")]];
                 md_code None (js "verbatim");
                 md_paragraph [md_text (js "after")]]
                [] eq_refl eq_refl eq_refl eq_refl eq_refl) as [Hall Hchunk].
  split.
  - apply (Hchunk [md_heading 2 [md_text (js "Plot")]]
                  (md_code (Some (js "r")) (js "plot(x)"))
                  [md_blockquote [md_paragraph [md_text (js "quoted")]];
                   md_code None (js "verbatim");
                   md_paragraph [md_text (js "after")]]
                  [Heading (Some 2%N) [plain (js "Plot")]] []
                  eq_refl eq_refl eq_refl).
    reflexivity.
  - apply Hall. intros t code chunkOptions. eexists. reflexivity.
Defined.

Lemma scenario_heading_then_marked_paragraph_witness :
  qmdToProseMirror scenario_extract no_front_matter scenario_parse never_called
                   (js "the document") []
  = (Returned
       (mkResult
          (mkDoc [Heading (Some 1%N) [plain (js "T")];
                  Paragraph [plain (js "Hello ");
                             commented (js "world") (js "c1")]]
                 tt)
          [js "c1"]),
     []).
Proof.
  apply (@scenario_heading_then_marked_paragraph
           unit (list jsstring) unit
           scenario_extract no_front_matter scenario_parse never_called
           (js "the document") [js "c1"] scenario_body tt []);
    reflexivity.
Defined.

(** C7 does not hold as stated: the heading node made for [bold_heading]
    holds "Hello " only, and the plain text of the heading's content is
    "Hello world". *)
Lemma bold_heading_loses_bold_text :
  block never_called bold_heading []
  = (Returned [Heading (Some 1%N) [plain (js "Hello ")]], [])
  /\ List.concat (List.map flatten_text [md_text (js "Hello ");
                                          md_strong [md_text (js "world")]])
     = js "Hello world"
  /\ js "Hello " <> js "Hello world".
Proof. split; [reflexivity|]. split; [reflexivity|discriminate]. Qed.

Lemma heading_level_and_direct_values_witness :
  block never_called bold_heading []
  = (Returned [Heading (Some 1%N) [plain (js "Hello ")]], [])
  /\ (Forall (fun c => md_value c <> None)
             [md_text (js "Hello "); md_strong [md_text (js "world")]] ->
      js "Hello " = js "Hello world").
Proof.
  apply (@heading_level_and_direct_values unit never_called bold_heading []).
  reflexivity.
Defined.

Lemma nodes_follow_source_order_witness :
  (exists remaining markdown tree children,
      plain_extract (js "doc") = Returned (comments chunk_result, remaining)
      /\ no_front_matter remaining
         = Returned (attrs_yaml (prosemirrorJson chunk_result), markdown)
      /\ chunk_parse markdown = Returned tree
      /\ md_children tree = Some children
      /\ Forall2 (node_of unit) (filter handled children)
                 (content (prosemirrorJson chunk_result)))
  /\ (forall node t0,
        handled node = false -> block payload_renderChunk node t0 = (Returned [], t0))
  /\ (forall node before after acc t0,
        handled node = false ->
        block_loop payload_renderChunk (before ++ node :: after) acc t0
        = block_loop payload_renderChunk (before ++ after) acc t0).
Proof.
  apply (@nodes_follow_source_order
           unit (list jsstring) unit
           plain_extract no_front_matter chunk_parse payload_renderChunk
           (js "doc") [] chunk_result [(Some (js "plot(x)"), js "r")]).
  reflexivity.
Defined.

Lemma untagged_code_block_is_skipped_witness :
  (forall t, block payload_renderChunk (md_code None (js "verbatim")) t
             = (Returned [], t))
  /\ (forall before after acc t,
        block_loop payload_renderChunk
                   (before ++ md_code None (js "verbatim") :: after) acc t
        = block_loop payload_renderChunk (before ++ after) acc t)
  /\ (forall out, ~ node_of unit (md_code None (js "verbatim")) out).
Proof.
  apply (@untagged_code_block_is_skipped
           unit payload_renderChunk (md_code None (js "verbatim")));
    reflexivity.
Defined.

(* --------------------------------------------------------------------- *)
(** ** Paths *)
(* --------------------------------------------------------------------- *)

Import Path.

Lemma split_slash_nonempty s : split_slash s <> [].
Proof.
  destruct s as [|c s]; simpl; [discriminate|].
  destruct (c =? slash)%N; [discriminate|].
  destruct (split_slash s); discriminate.
Qed.

Lemma split_slash_app a b :
  split_slash (a ++ slash :: b) = split_slash a ++ split_slash b.
Proof.
  induction a as [|c a IH]; [reflexivity|]. simpl.
  destruct (c =? slash)%N; [rewrite IH; reflexivity|].
  rewrite IH. pose proof (split_slash_nonempty a) as Hne.
  destruct (split_slash a); [congruence|reflexivity].
Qed.

Lemma split_slash_no_slash s : no_slash s = true -> split_slash s = [s].
Proof.
  induction s as [|c s IH]; [reflexivity|]. simpl.
  intros H. apply andb_true_iff in H as [Hc Hs].
  apply negb_true_iff in Hc. rewrite Hc, (IH Hs). reflexivity.
Qed.

Lemma split_slash_segments s : Forall (fun seg => no_slash seg = true) (split_slash s).
Proof.
  induction s as [|c s IH]; simpl; [repeat constructor|].
  destruct (c =? slash)%N eqn:Hc; [constructor; [reflexivity|exact IH]|].
  destruct (split_slash s) as [|seg segs]; [repeat constructor; simpl; rewrite Hc; reflexivity|].
  inversion IH; subst. constructor; [|assumption]. simpl. rewrite Hc. assumption.
Qed.

Lemma join_slash_cons seg rest :
  rest <> [] -> join_slash (seg :: rest) = seg ++ slash :: join_slash rest.
Proof. destruct rest; [congruence|reflexivity]. Qed.

Lemma join_slash_app R T :
  R <> [] -> T <> [] ->
  join_slash (R ++ T) = join_slash R ++ slash :: join_slash T.
Proof.
  intros HR HT. induction R as [|seg R IH]; [congruence|].
  destruct R as [|seg' R].
  - simpl app. apply join_slash_cons, HT.
  - change ((seg :: seg' :: R) ++ T) with (seg :: (seg' :: R) ++ T).
    rewrite join_slash_cons by discriminate.
    rewrite IH by discriminate.
    rewrite (join_slash_cons seg (rest := seg' :: R)) by discriminate.
    rewrite <- app_assoc. reflexivity.
Qed.

Lemma split_join_slash segs :
  segs <> [] -> Forall (fun seg => no_slash seg = true) segs ->
  split_slash (join_slash segs) = segs.
Proof.
  intros Hne Hall. induction Hall as [|seg segs Hseg Hall IH]; [congruence|].
  destruct segs as [|seg' segs].
  - simpl. apply split_slash_no_slash, Hseg.
  - rewrite join_slash_cons by discriminate.
    rewrite split_slash_app, (split_slash_no_slash _ Hseg), IH by discriminate.
    reflexivity.
Qed.

Lemma plain_segment_spec seg :
  plain_segment seg = true ->
  no_slash seg = true /\ seg <> [] /\ eqb seg [] = false
  /\ eqb seg [dot] = false /\ eqb seg [dot; dot] = false.
Proof.
  unfold plain_segment. intros H.
  apply andb_true_iff in H as [H H3]. apply andb_true_iff in H as [H H2].
  apply andb_true_iff in H as [H0 H1].
  apply negb_true_iff in H1, H2, H3. repeat split; auto.
  apply eqb_neq. exact H1.
Qed.

Lemma push_segment_plain allow res seg :
  plain_segment seg = true -> push_segment allow res seg = seg :: res.
Proof.
  intros H. apply plain_segment_spec in H as (_ & _ & H1 & H2 & H3).
  unfold push_segment. rewrite H1, H2, H3. reflexivity.
Qed.

Lemma fold_push_plain allow segs : forall res,
  Forall (fun seg => plain_segment seg = true) segs ->
  fold_left (push_segment allow) segs res = rev segs ++ res.
Proof.
  induction segs as [|seg segs IH]; intros res Hall; [reflexivity|].
  inversion Hall; subst. simpl. rewrite push_segment_plain, IH by assumption.
  rewrite <- app_assoc. reflexivity.
Qed.

(** Below the root, [normalizeString] keeps plain segments only. *)
Lemma push_segment_keeps_plain res seg :
  Forall (fun s => plain_segment s = true) res ->
  no_slash seg = true ->
  Forall (fun s => plain_segment s = true) (push_segment false res seg).
Proof.
  intros Hres Hseg. unfold push_segment.
  destruct (eqb seg []) eqn:E0; [assumption|].
  destruct (eqb seg [dot]) eqn:E1; [assumption|]. simpl.
  destruct (eqb seg [dot; dot]) eqn:E2.
  - destruct res as [|l res]; [constructor|].
    inversion Hres; subst. destruct (eqb l [dot; dot]); assumption.
  - constructor; [|assumption]. unfold plain_segment.
    rewrite Hseg, E0, E1, E2. reflexivity.
Qed.

Lemma fold_push_keeps_plain segs : forall res,
  Forall (fun s => plain_segment s = true) res ->
  Forall (fun seg => no_slash seg = true) segs ->
  Forall (fun s => plain_segment s = true) (fold_left (push_segment false) segs res).
Proof.
  induction segs as [|seg segs IH]; intros res Hres Hall; [assumption|].
  inversion Hall; subst. simpl. apply IH; [|assumption].
  apply push_segment_keeps_plain; assumption.
Qed.

Lemma last_app_nonempty (A : Type) (a b : list A) (d : A) :
  b <> [] -> last (a ++ b) d = last b d.
Proof.
  intros Hb. induction a as [|x a IH]; [reflexivity|].
  simpl. rewrite IH. destruct (a ++ b) eqn:E; [|reflexivity].
  apply app_eq_nil in E as [_ E]. congruence.
Qed.

Lemma last_In (A : Type) (l : list A) (d : A) : l <> [] -> In (last l d) l.
Proof.
  induction l as [|x l IH]; [congruence|]. intros _.
  destruct l as [|y l]; [left; reflexivity|].
  right. apply IH. discriminate.
Qed.

Lemma join_slash_plain_last segs :
  segs <> [] -> Forall (fun s => plain_segment s = true) segs ->
  join_slash segs <> [] /\ (last (slash :: join_slash segs) 0 =? slash)%N = false.
Proof.
  intros Hne Hall. induction Hall as [|seg segs Hseg Hall IH]; [congruence|].
  apply plain_segment_spec in Hseg as (Hns & Hne' & _).
  destruct segs as [|seg' segs].
  - simpl join_slash. split; [assumption|].
    change (slash :: seg) with ([slash] ++ seg).
    rewrite last_app_nonempty by assumption.
    unfold no_slash in Hns. rewrite forallb_forall in Hns.
    apply negb_true_iff, Hns, last_In, Hne'.
  - rewrite join_slash_cons by discriminate.
    destruct (IH ltac:(discriminate)) as [IH1 IH2]. split.
    + destruct seg; discriminate.
    + change (slash :: seg ++ slash :: join_slash (seg' :: segs))
        with ((slash :: seg) ++ slash :: join_slash (seg' :: segs)).
      rewrite last_app_nonempty by discriminate. exact IH2.
Qed.

Lemma normalizeString_rooted segs :
  segs <> [] -> Forall (fun s => plain_segment s = true) segs ->
  normalizeString (slash :: join_slash segs) false = join_slash segs.
Proof.
  intros Hne Hall.
  assert (Hns : Forall (fun s => no_slash s = true) segs).
  { eapply Forall_impl; [|exact Hall]. intros s Hs.
    apply plain_segment_spec in Hs. tauto. }
  unfold normalizeString.
  change (slash :: join_slash segs) with ([] ++ slash :: join_slash segs).
  rewrite split_slash_app, split_join_slash by assumption.
  change (split_slash [] ++ segs) with ([] :: segs).
  change (fold_left (push_segment false) ([] :: segs) [])
    with (fold_left (push_segment false) segs []).
  rewrite fold_push_plain, app_nil_r, rev_involutive by assumption.
  reflexivity.
Qed.

(** [normalize] leaves a rooted path as it is. *)
Lemma normalize_rooted p segs : rooted p segs -> normalize p = p.
Proof.
  intros (Hne & Hall & ->).
  destruct (join_slash_plain_last Hne Hall) as [Hj Hlast].
  unfold normalize. rewrite N.eqb_refl, Hlast. cbn [negb].
  rewrite normalizeString_rooted by assumption.
  destruct (join_slash segs); [congruence|reflexivity].
Qed.

(** Joining plain segments to a rooted path appends them. *)
Lemma join_rooted p segs more :
  rooted p segs -> more <> [] ->
  Forall (fun s => plain_segment s = true) more ->
  Path.join (p :: more) = p ++ slash :: join_slash more
  /\ rooted (p ++ slash :: join_slash more) (segs ++ more).
Proof.
  intros (Hne & Hall & ->) Hmore Hplain.
  assert (Hr : rooted (slash :: join_slash (segs ++ more)) (segs ++ more)).
  { split; [destruct segs; [congruence|discriminate]|].
    split; [apply Forall_app; split; assumption|reflexivity]. }
  assert (E : (slash :: join_slash segs) ++ slash :: join_slash more
              = slash :: join_slash (segs ++ more)).
  { rewrite join_slash_app by assumption. reflexivity. }
  rewrite E. split; [|exact Hr].
  assert (Hf : filter (fun a => negb (eqb a [])) more = more).
  { apply forallb_filter_id. apply forallb_forall.
    intros s Hs. rewrite Forall_forall in Hplain.
    destruct (plain_segment_spec _ (Hplain s Hs)) as (_ & _ & H0 & _).
    rewrite H0. reflexivity. }
  unfold Path.join. cbn [filter eqb negb]. rewrite Hf.
  rewrite join_slash_cons by assumption.
  rewrite E. apply normalize_rooted with (segs := segs ++ more). exact Hr.
Qed.

Lemma join_pair a b :
  a <> [] -> b <> [] -> Path.join [a; b] = normalize (a ++ slash :: b).
Proof.
  intros Ha Hb. unfold Path.join. simpl filter.
  apply eqb_neq in Ha, Hb. rewrite Ha, Hb. reflexivity.
Qed.

Lemma normalize_absolute d q qs :
  (last (slash :: d) 0 =? slash)%N = false ->
  normalizeString (slash :: d) false = q :: qs ->
  normalize (slash :: d) = slash :: q :: qs.
Proof.
  intros Hlast Hn. unfold normalize. rewrite N.eqb_refl, Hlast. cbn [negb].
  rewrite Hn. reflexivity.
Qed.

Lemma CACHE_DIR_rooted proc :
  is_absolute (__dirname proc) = true -> exists segs, rooted (CACHE_DIR proc) segs.
Proof.
  unfold CACHE_DIR, is_absolute. destruct (__dirname proc) as [|c d]; [discriminate|].
  intros Hc. apply N.eqb_eq in Hc. subst c.
  set (X := push_segment false
              (fold_left (push_segment false) (split_slash (slash :: d)) [])
              [dot; dot]).
  assert (HX : Forall (fun s => plain_segment s = true) X).
  { apply push_segment_keeps_plain; [|reflexivity].
    apply fold_push_keeps_plain; [constructor|apply split_slash_segments]. }
  exists (rev X ++ [js "cache"]).
  assert (Hplain : Forall (fun s => plain_segment s = true) (rev X ++ [js "cache"])).
  { apply Forall_app. split; [apply Forall_rev, HX|repeat constructor]. }
  assert (Hne : rev X ++ [js "cache"] <> []).
  { destruct (rev X); discriminate. }
  split; [exact Hne|]. split; [exact Hplain|].
  destruct (join_slash_plain_last Hne Hplain) as [Hj _].
  rewrite join_pair by discriminate.
  assert (Hn : normalizeString ((slash :: d) ++ slash :: js "../cache") false
               = join_slash (rev X ++ [js "cache"])).
  { unfold normalizeString.
    rewrite split_slash_app, fold_left_app.
    change (split_slash (js "../cache")) with [[dot; dot]; js "cache"].
    cbn [fold_left]. fold X.
    rewrite push_segment_plain by reflexivity. reflexivity. }
  destruct (join_slash (rev X ++ [js "cache"])) as [|q qs] eqn:E; [congruence|].
  apply (@normalize_absolute (d ++ slash :: js "../cache")); [|exact Hn].
  change (slash :: d ++ slash :: js "../cache")
      with ((slash :: d) ++ slash :: js "../cache").
    rewrite last_app_nonempty by discriminate. reflexivity.
Qed.

(* --------------------------------------------------------------------- *)
(** ** The digest *)
(* --------------------------------------------------------------------- *)

Lemma hex_digit_is_hex d : (d < 16)%N -> Crypto.is_hex_digit (Crypto.hex_digit d) = true.
Proof.
  intros Hd. unfold Crypto.is_hex_digit, Crypto.hex_digit.
  destruct (N.ltb_spec d 10).
  - apply orb_true_iff. left. apply andb_true_iff. split; apply N.leb_le; lia.
  - apply orb_true_iff. right. apply andb_true_iff. split; apply N.leb_le; lia.
Qed.

Lemma hex_length bs : List.length (Crypto.hex bs) = 2 * List.length bs.
Proof.
  unfold Crypto.hex. induction bs as [|b bs IH]; [reflexivity|].
  simpl. rewrite IH. lia.
Qed.

Lemma hex_is_hex bs : forallb Crypto.is_hex_digit (Crypto.hex bs) = true.
Proof.
  unfold Crypto.hex. induction bs as [|b bs IH]; [reflexivity|].
  simpl. rewrite IH, !hex_digit_is_hex; [reflexivity| |];
    apply N.mod_upper_bound; discriminate.
Qed.

Lemma md5_length msg : List.length (Crypto.md5 msg) = 16.
Proof.
  unfold Crypto.md5. cbv zeta. rewrite !length_app. unfold Crypto.le_bytes.
  rewrite !length_map, !length_seq. reflexivity.
Qed.

(** The digest is thirty-two lower-case hexadecimal digits, whatever has
    been hashed. *)
Lemma digest_hex_form h :
  List.length (Crypto.digest_hex h) = 32
  /\ forallb Crypto.is_hex_digit (Crypto.digest_hex h) = true.
Proof.
  unfold Crypto.digest_hex. rewrite hex_length, md5_length. split; [reflexivity|].
  apply hex_is_hex.
Qed.

Lemma hex_no_slash s : forallb Crypto.is_hex_digit s = true -> no_slash s = true.
Proof.
  unfold no_slash. rewrite !forallb_forall. intros H c Hc. specialize (H c Hc).
  apply negb_true_iff. destruct (N.eqb_spec c slash) as [->|]; [discriminate H|reflexivity].
Qed.

Lemma no_slash_app a b : no_slash (a ++ b) = no_slash a && no_slash b.
Proof. apply forallb_app. Qed.

(** A long name without slash is a plain segment. *)
Lemma long_name_plain s :
  no_slash s = true -> 2 < List.length s -> plain_segment s = true.
Proof.
  intros Hs Hlen. unfold plain_segment. rewrite Hs.
  destruct s as [|a [|b [|c s]]]; simpl in Hlen; try lia.
  simpl. rewrite !andb_false_r. reflexivity.
Qed.

(* --------------------------------------------------------------------- *)
(** ** The name of a document *)
(* --------------------------------------------------------------------- *)

Lemma base_no_slash p : no_slash (base p) = true.
Proof.
  unfold base.
  remember (filter (fun a => negb (eqb a [])) (split_slash p)) as l eqn:E.
  destruct l as [|x l']; [reflexivity|].
  assert (Hin : In (last (x :: l') []) (x :: l')) by (apply last_In; discriminate).
  rewrite E in Hin at 2. apply filter_In in Hin as [Hin _].
  pose proof (split_slash_segments p) as H. rewrite Forall_forall in H.
  apply H, Hin.
Qed.

Lemma no_slash_firstn n s : no_slash s = true -> no_slash (firstn n s) = true.
Proof.
  unfold no_slash. rewrite !forallb_forall. intros H c Hc.
  apply H. rewrite <- (firstn_skipn n s). apply in_or_app. left. exact Hc.
Qed.

Lemma parse_name_no_slash p : no_slash (parse_name p) = true.
Proof.
  unfold parse_name. pose proof (base_no_slash p) as H.
  destruct (last_dot (base p)) as [[|i]|]; auto.
  destruct (eqb (base p) [dot; dot] && negb (base_follows_root p));
    auto using no_slash_firstn.
Qed.

Lemma files_dir_plain p : plain_segment (parse_name p ++ js "_files") = true.
Proof.
  apply long_name_plain.
  - rewrite no_slash_app, parse_name_no_slash. reflexivity.
  - rewrite length_app. simpl. lia.
Qed.

Lemma last_dot_none s : no_dot s = true -> last_dot s = None.
Proof.
  induction s as [|c s IH]; [reflexivity|]. simpl. intros H.
  apply andb_true_iff in H as [Hc Hs]. rewrite (IH Hs).
  apply negb_true_iff in Hc. rewrite Hc. reflexivity.
Qed.

Lemma last_dot_app stem ext :
  no_dot ext = true -> last_dot (stem ++ dot :: ext) = Some (List.length stem).
Proof.
  intros Hext. induction stem as [|c stem IH]; simpl.
  - rewrite (@last_dot_none _ Hext). reflexivity.
  - rewrite IH. reflexivity.
Qed.

Lemma base_of_name dir name :
  (dir = [] \/ exists d, dir = d ++ [slash]) ->
  name <> [] -> no_slash name = true -> base (dir ++ name) = name.
Proof.
  intros Hdir Hne Hns. unfold base.
  assert (Hn : negb (eqb name []) = true) by (apply negb_true_iff, eqb_neq, Hne).
  destruct Hdir as [->|[d ->]].
  - simpl app. rewrite (@split_slash_no_slash _ Hns). simpl. rewrite Hn. reflexivity.
  - rewrite <- app_assoc. simpl app.
    rewrite split_slash_app, (@split_slash_no_slash _ Hns), filter_app.
    simpl filter. rewrite Hn. apply last_last.
Qed.

(** The name of [stem.ext], in whatever directory, is [stem]. *)
Lemma parse_name_stem dir stem ext :
  (dir = [] \/ exists d, dir = d ++ [slash]) ->
  stem <> [] -> no_slash stem = true ->
  ext <> [] -> no_slash ext = true -> no_dot ext = true ->
  parse_name (dir ++ stem ++ dot :: ext) = stem.
Proof.
  intros Hdir Hs Hss He Hes Hed. unfold parse_name.
  rewrite base_of_name; auto.
  - rewrite (@last_dot_app _ _ Hed).
    destruct stem as [|c stem]; [congruence|]. cbn [List.length].
    assert (E : eqb ((c :: stem) ++ dot :: ext) [dot; dot] = false).
    { apply eqb_neq. intros E. apply (f_equal (@List.length _)) in E.
      rewrite length_app in E. destruct ext; [congruence|]. simpl in E. lia. }
    rewrite E. cbn [andb]. change (S (List.length stem)) with (List.length (c :: stem)).
    rewrite firstn_app, firstn_all, Nat.sub_diag. simpl. f_equal. apply app_nil_r.
  - destruct stem; discriminate.
  - rewrite no_slash_app, Hss. simpl. rewrite Hes. reflexivity.
Qed.

(* --------------------------------------------------------------------- *)
(** ** The cache key helpers *)
(* --------------------------------------------------------------------- *)

(** C4, as amended.  Let the module directory be absolute.  The hashed
    component of a cache entry is thirty-two hexadecimal digits whatever the
    file path, and the rendered-documents root is the directory
    [rendered_docs] of the cache root.  For a repository id and a commit
    reference without slash, calculateCacheFilename returns the root, a
    slash, and the name made of the id, the hash of the file path and the
    commit reference, separated by hyphens and ending in [.json].  For a
    repository id and a commit reference that are plain segments (not
    empty, without slash, neither [.] nor [..]), calculateAssetCacheDir
    returns the cache root followed by [assets], the id, the commit
    reference and the name of the document followed by [_files], each after
    one slash, with no slash at the end.  The name of [stem.ext], in
    whatever directory, is [stem]. *)
Theorem cache_paths_have_the_form proc repoId docFile commitHash :
  is_absolute (__dirname proc) = true ->
  let hash := Crypto.digest_hex (Crypto.update Crypto.createHash_md5 docFile) in
  (List.length hash = 32 /\ forallb Crypto.is_hex_digit hash = true)
  /\ CACHE_DIR_RENDERED_DOCS proc = CACHE_DIR proc ++ js "/rendered_docs"
  /\ (no_slash repoId = true -> no_slash commitHash = true ->
      calculateCacheFilename proc repoId docFile commitHash
      = CACHE_DIR_RENDERED_DOCS proc ++ js "/" ++ repoId ++ js "-" ++ hash
          ++ js "-" ++ commitHash ++ js ".json")
  /\ (plain_segment repoId = true -> plain_segment commitHash = true ->
      calculateAssetCacheDir proc repoId docFile commitHash
      = CACHE_DIR proc ++ js "/assets/" ++ repoId ++ js "/" ++ commitHash
          ++ js "/" ++ Path.parse_name docFile ++ js "_files")
  /\ (forall dir stem ext,
        docFile = dir ++ stem ++ js "." ++ ext ->
        (dir = [] \/ exists d, dir = d ++ js "/") ->
        stem <> [] -> no_slash stem = true ->
        ext <> [] -> no_slash ext = true -> no_dot ext = true ->
        Path.parse_name docFile = stem).
Proof.
  intros Habs hash.
  destruct (CACHE_DIR_rooted proc Habs) as (segs & Hroot).
  destruct (digest_hex_form (Crypto.update Crypto.createHash_md5 docFile))
    as [Hlen Hhex]. fold hash in Hlen, Hhex.
  destruct (@join_rooted _ segs [js "rendered_docs"] Hroot)
    as [Hdocs Hdocs_root]; [discriminate|repeat constructor|].
  split; [split; assumption|].
  split; [exact Hdocs|].
  split; [|split].
  - intros Hr Hc. unfold calculateCacheFilename. fold hash.
    unfold CACHE_DIR_RENDERED_DOCS. rewrite Hdocs.
    eapply proj1, join_rooted; [exact Hdocs_root|discriminate|].
    constructor; [|constructor]. apply long_name_plain.
    + rewrite !no_slash_app, Hr, Hc, (hex_no_slash _ Hhex). reflexivity.
    + rewrite !length_app, Hlen. simpl. lia.
  - intros Hr Hc. unfold calculateAssetCacheDir.
    destruct (@join_rooted _ segs
                [js "assets"; repoId; commitHash; parse_name docFile ++ js "_files"]
                Hroot) as [E _]; [discriminate| |].
    + repeat constructor; auto using files_dir_plain.
    + rewrite E. reflexivity.
  - intros dir stem ext -> Hdir. apply parse_name_stem. exact Hdir.
Qed.

Lemma cache_paths_have_the_form_witness :
  calculateCacheFilename first_run (js "test-repo-id-cache") (js "doc.qmd") test_commit
  = js "/srv/app/backend/cache/rendered_docs/test-repo-id-cache-"
       ++ js "d01abea3c227ff1eb6a253fc74f4715f" ++ js "-" ++ test_commit ++ js ".json"
  /\ calculateAssetCacheDir first_run (js "test-repo-id-cache") (js "doc.qmd") test_commit
     = js "/srv/app/backend/cache/assets/test-repo-id-cache/" ++ test_commit
          ++ js "/doc_files"
  /\ Path.parse_name (js "doc.qmd") = js "doc".
Proof.
  pose proof (@cache_paths_have_the_form
                first_run (js "test-repo-id-cache") (js "doc.qmd") test_commit eq_refl)
    as H.
  cbv zeta in H. destruct H as (_ & _ & Hfile & Hdir & Hstem).
  split; [|split].
  - rewrite (Hfile eq_refl eq_refl). vm_compute. reflexivity.
  - rewrite (Hdir eq_refl eq_refl). vm_compute. reflexivity.
  - refine (Hstem [] (js "doc") (js "qmd") eq_refl (or_introl eq_refl)
                  _ eq_refl _ eq_refl eq_refl); discriminate.
Defined.

(** C4 does not hold as stated: with the repository id [..] the asset
    directory is not below [assets] and does not contain the id, and with
    the id [../../x] the cache entry is not inside the rendered-documents
    root. *)
Lemma dot_dot_repository_leaves_the_layout :
  calculateAssetCacheDir first_run (js "..") (js "doc.qmd") (js "abc")
  = js "/srv/app/backend/cache/abc/doc_files"
  /\ calculateAssetCacheDir first_run (js "..") (js "doc.qmd") (js "abc")
     <> CACHE_DIR first_run ++ js "/assets/" ++ js ".." ++ js "/" ++ js "abc"
          ++ js "/" ++ js "doc" ++ js "_files"
  /\ calculateCacheFilename first_run (js "../../x") (js "doc.qmd") (js "abc")
     = js "/srv/app/backend/x-d01abea3c227ff1eb6a253fc74f4715f-abc.json"
  /\ starts_with (CACHE_DIR_RENDERED_DOCS first_run)
                 (calculateCacheFilename first_run (js "../../x") (js "doc.qmd")
                                         (js "abc"))
     = false.
Proof.
  split; [vm_compute; reflexivity|].
  split; [vm_compute; discriminate|].
  split; vm_compute; reflexivity.
Qed.

(* ===================================================================== *)
(** * Further properties of the parser *)
(* ===================================================================== *)

(* --------------------------------------------------------------------- *)
(** ** The loop of the pass: fuel, shape of the segments, characters *)
(* --------------------------------------------------------------------- *)

Lemma span_loop_more_fuel fuel : forall textValue lastIndex paragraphContent l,
  span_loop fuel textValue lastIndex paragraphContent = Done l ->
  span_loop (S fuel) textValue lastIndex paragraphContent = Done l.
Proof.
  induction fuel as [|fuel IH]; intros t i acc l; [discriminate|].
  intros H. change (span_loop (S (S fuel)) t i acc)
    with (match exec commentSpanRegex t i with
          | (Some m, lastIndex') =>
              span_loop (S fuel) t lastIndex'
                ((if i <? index m
                  then acc ++ [plain (substring t i (index m))] else acc)
                   ++ [commented (nth 0 (captures m) []) (nth 2 (captures m) [])])
          | (None, _) =>
              Done (if i <? List.length t
                    then acc ++ [plain (substring_from t i)] else acc)
          end).
  simpl in H. destruct (exec commentSpanRegex t i) as [[m|] e]; [|exact H].
  apply IH. exact H.
Qed.

(** The [while] loop of lines 51-64 ends on every text: with any fuel
    above the length of the text it gives the result of the pass, which
    is a list of segments. *)
Theorem span_loop_ends textValue paragraphContent fuel :
  List.length textValue < fuel ->
  span_loop fuel textValue 0 paragraphContent = scan_text textValue paragraphContent
  /\ exists l, scan_text textValue paragraphContent = Done l.
Proof.
  intros Hfuel. destruct (scan_text_total textValue paragraphContent) as (l & Hl).
  split; [|eauto]. rewrite Hl. unfold scan_text in Hl.
  assert (Hmore : forall k, span_loop (k + S (List.length textValue)) textValue 0
                                      paragraphContent = Done l).
  { induction k as [|k IH]; [exact Hl|]. apply span_loop_more_fuel. exact IH. }
  replace fuel with ((fuel - S (List.length textValue)) + S (List.length textValue))
    by lia.
  apply Hmore.
Qed.

Lemma span_loop_ends_witness :
  span_loop 100 two_markers 0 [] = scan_text two_markers []
  /\ exists l, scan_text two_markers [] = Done l.
Proof. apply (@span_loop_ends two_markers [] 100). vm_compute. lia. Defined.

Lemma forallb_not_In (d : N) (s : jsstring) :
  forallb (in_class (NotLit d)) s = true -> ~ In d s.
Proof.
  intros H Hin. apply forallb_Forall_not in H. rewrite Forall_forall in H.
  exact (H d Hin eq_refl).
Qed.

Lemma plain_opt_ok (s : jsstring) : Forall segment_ok (plain_opt s).
Proof.
  destruct s as [|c s]; [constructor|]. repeat constructor. discriminate.
Qed.

Lemma Scanned_ok s l : Scanned s l -> Forall segment_ok l.
Proof.
  induction 1 as [s _ | s pre x inner ws id rest l Hs Hx Hi Hinner Hw Hws
                        Hd Hid Hmin HS IH].
  - apply plain_opt_ok.
  - apply Forall_app. split; [apply plain_opt_ok|]. constructor; [|exact IH].
    split; [exact Hi|]. simpl. exists id. repeat split; auto.
    + apply forallb_not_In. exact Hid.
    + apply forallb_not_In. exact Hinner.
Qed.

(** Whatever the text, every segment the pass emits has a non-empty
    text; a segment with a comment mark has exactly one mark, its id is
    not empty and contains no double quote, and its text contains no
    closing bracket. *)
Theorem scan_text_segments_ok textValue l :
  scan_text textValue [] = Done l -> Forall segment_ok l.
Proof.
  intros H. destruct (scan_text_scanned textValue []) as (l' & _ & Hl & HS).
  rewrite H in Hl. injection Hl as <-. eapply Scanned_ok; eassumption.
Qed.

Lemma scan_text_segments_ok_witness :
  Forall segment_ok
         [plain (js "Hello "); commented (js "world") (js "c1"); plain (js " and ");
          commented (js "x") (js "c2"); plain (js ".")].
Proof. apply (@scan_text_segments_ok two_markers). reflexivity. Defined.

Lemma matched_text_chars x inner ws id c :
  In c [91%N; 93%N; 123%N; 34%N; 125%N] -> In c (matched_text x inner ws id).
Proof.
  unfold matched_text. intros H. simpl in H.
  destruct H as [H|[H|[H|[H|[H|H]]]]]; try contradiction; subst c;
    repeat rewrite in_app_iff; simpl; auto 12.
Qed.

(** A text that lacks one of the five characters every marker needs
    (the brackets, the braces, the double quote) goes through the pass
    unchanged: it is one plain segment, or nothing when it is empty. *)
Theorem scan_text_without_marker_characters textValue c :
  In c [91%N; 93%N; 123%N; 34%N; 125%N] ->
  ~ In c textValue ->
  scan_text textValue [] = Done (plain_opt textValue).
Proof.
  intros Hc Hnot. destruct (scan_text_scanned textValue []) as (l & _ & Hl & HS).
  rewrite Hl. f_equal.
  destruct HS as [s _ | s pre x inner ws id rest l Hs _ _ _ _ _ _ _ _ _];
    [reflexivity|].
  exfalso. apply Hnot. rewrite Hs. apply in_or_app. right. apply in_or_app. left.
  apply matched_text_chars. exact Hc.
Qed.

Lemma scan_text_without_marker_characters_witness :
  scan_text (js "see [1] and {x}") [] = Done [plain (js "see [1] and {x}")].
Proof.
  apply (@scan_text_without_marker_characters (js "see [1] and {x}") 34%N).
  - simpl. tauto.
  - cbv. intros H. repeat (destruct H as [H|H]; [discriminate H|]). exact H.
Defined.

Lemma subseq_refl (A : Type) (l : list A) : subseq l l.
Proof. induction l; constructor; assumption. Qed.

Lemma subseq_nil_l (A : Type) (l : list A) : subseq [] l.
Proof. induction l; constructor; assumption. Qed.

Lemma subseq_app (A : Type) (a a' b b' : list A) :
  subseq a a' -> subseq b b' -> subseq (a ++ b) (a' ++ b').
Proof.
  induction 1 as [|x a a' _ IH|x a a' _ IH]; simpl; intros Hb.
  - exact Hb.
  - apply subseq_skip, IH, Hb.
  - apply subseq_keep, IH, Hb.
Qed.

Lemma subseq_length (A : Type) (a b : list A) :
  subseq a b -> List.length a <= List.length b.
Proof. induction 1; simpl; lia. Qed.

Lemma subseq_inner_matched x inner ws id : subseq inner (matched_text x inner ws id).
Proof.
  unfold matched_text. apply subseq_skip.
  rewrite <- (app_nil_r inner) at 1.
  apply subseq_app; [apply subseq_refl|apply subseq_nil_l].
Qed.

Lemma Scanned_subseq s l : Scanned s l -> subseq (List.concat (List.map text l)) s.
Proof.
  induction 1 as [s _ | s pre x inner ws id rest l Hs Hx Hi Hinner Hw Hws
                        Hd Hid Hmin HS IH].
  - rewrite (proj2 (plain_opt_text s)). apply subseq_refl.
  - rewrite map_app, concat_app, (proj2 (plain_opt_text pre)), Hs.
    change (List.concat (List.map text (commented inner id :: l)))
      with (inner ++ List.concat (List.map text l)).
    apply subseq_app; [apply subseq_refl|].
    apply subseq_app; [apply subseq_inner_matched|exact IH].
Qed.

(** Whatever the text, the texts of the emitted segments, put together,
    are the text with some characters left out: the pass adds no
    character and changes no order, and the segments are never longer
    than the text. *)
Theorem scan_text_only_removes textValue l :
  scan_text textValue [] = Done l ->
  subseq (List.concat (List.map text l)) textValue
  /\ List.length (List.concat (List.map text l)) <= List.length textValue.
Proof.
  intros H. destruct (scan_text_scanned textValue []) as (l' & _ & Hl & HS).
  rewrite H in Hl. injection Hl as <-.
  pose proof (Scanned_subseq HS) as Hsub. split; [exact Hsub|].
  apply subseq_length. exact Hsub.
Qed.

Lemma scan_text_only_removes_witness :
  subseq (js "a") xcomment_text /\ List.length (js "a") <= List.length xcomment_text.
Proof.
  apply (@scan_text_only_removes xcomment_text [commented (js "a") (js "c")]).
  reflexivity.
Defined.

Lemma match_needs_closing_bracket u caps rest :
  match_items commentSpanRegex u [] [] = Some (caps, rest) -> In 93%N u.
Proof.
  intros H. apply match_items_sound in H as (x & inner & ws & id & -> & _).
  apply in_or_app. left. apply matched_text_chars. simpl. tauto.
Qed.

(** A match stays a match when the text goes on. *)
Lemma match_items_extend u tail caps rest :
  match_items commentSpanRegex u [] [] = Some (caps, rest) ->
  match_items commentSpanRegex (u ++ tail) [] [] = Some (caps, rest ++ tail).
Proof.
  intros H.
  apply match_items_sound in H
    as (x & inner & ws & id & -> & -> & Hx & Hi & Hinner & Hw & Hws & Hd & Hid).
  rewrite <- app_assoc. apply match_items_complete; assumption.
Qed.

Lemma no_match_scan u :
  (forall j, j <= List.length u ->
             match_items commentSpanRegex (skipn j u) [] [] = None) ->
  scan_text u [] = Done (plain_opt u).
Proof.
  intros Hnone. destruct (scan_text_scanned u []) as (l & _ & Hl & HS).
  rewrite Hl. f_equal.
  destruct HS as [s _ | s pre x inner ws id rest l Hs Hx Hi Hinner Hw Hws
                        Hd Hid _ _]; [reflexivity|].
  exfalso. specialize (Hnone (List.length pre)).
  rewrite Hs, skipn_length_app, match_items_complete in Hnone by assumption.
  discriminate Hnone. rewrite length_app. lia.
Qed.

Lemma Scanned_stable s l :
  Scanned s l ->
  Forall (fun seg => scan_text (text seg) [] = Done [plain (text seg)]) l.
Proof.
  induction 1 as [s Hnone | s pre x inner ws id rest l Hs Hx Hi Hinner Hw Hws
                             Hd Hid Hmin HS IH].
  - destruct s as [|c s]; [constructor|]. repeat constructor.
    apply (no_match_scan (c :: s) Hnone).
  - apply Forall_app. split; [|constructor; [|exact IH]].
    + destruct pre as [|c pre]; [constructor|]. repeat constructor.
      apply (no_match_scan (c :: pre)). intros j Hj.
      destruct (match_items commentSpanRegex (skipn j (c :: pre)) [] [])
        as [[caps r]|] eqn:E; [|reflexivity].
      exfalso. destruct (Nat.eq_dec j (List.length (c :: pre))) as [->|Hne].
      * rewrite skipn_all in E. discriminate E.
      * assert (Hlt : j < List.length (c :: pre)) by lia.
        pose proof (@match_items_extend _ (matched_text x inner ws id ++ rest) _ _ E) as E'.
        specialize (Hmin j Hlt).
        assert (Hsk : skipn j s
                      = skipn j (c :: pre) ++ matched_text x inner ws id ++ rest).
        { rewrite Hs, skipn_app.
          replace (j - List.length (c :: pre)) with 0 by lia. reflexivity. }
        rewrite Hsk, E' in Hmin. discriminate Hmin.
    + destruct inner as [|c inner]; [congruence|].
      change (text (commented (c :: inner) id)) with (c :: inner).
      apply (no_match_scan (c :: inner)). intros j Hj.
      destruct (match_items commentSpanRegex (skipn j (c :: inner)) [] [])
        as [[caps r]|] eqn:E; [|reflexivity].
      exfalso. apply match_needs_closing_bracket, In_skipn in E.
      exact (forallb_not_In _ _ Hinner E).
Qed.

(** Whatever the text, no segment the pass emits holds a marker that the
    pass would recognise: scanning the text of any emitted segment again
    gives that text back as one plain segment. *)
Theorem scan_text_leaves_no_marker textValue l :
  scan_text textValue [] = Done l ->
  Forall (fun seg => scan_text (text seg) [] = Done [plain (text seg)]) l.
Proof.
  intros H. destruct (scan_text_scanned textValue []) as (l' & _ & Hl & HS).
  rewrite H in Hl. injection Hl as <-. eapply Scanned_stable; eassumption.
Qed.

Lemma scan_text_leaves_no_marker_witness :
  Forall (fun seg => scan_text (text seg) [] = Done [plain (text seg)])
         [plain (js "Hello "); commented (js "world") (js "c1"); plain (js " and ");
          commented (js "x") (js "c2"); plain (js ".")].
Proof. apply (@scan_text_leaves_no_marker two_markers). reflexivity. Defined.

(* --------------------------------------------------------------------- *)
(** ** Paragraphs and renderer calls *)
(* --------------------------------------------------------------------- *)

Section ParserFurther.

Variables Yaml Comments Err : Type.
Variable extractCommentsAppendix : jsstring -> outcome Err (Comments * jsstring).
Variable matter : jsstring -> outcome Err (Yaml * jsstring).
Variable remark_parse : jsstring -> outcome Err MdNode.
Variable renderChunk : Trace -> option jsstring -> jsstring -> outcome Err jsstring.

Local Abbreviation one_block := (block renderChunk).
Local Abbreviation all_blocks := (block_loop renderChunk).
Local Abbreviation parse_qmd :=
  (qmdToProseMirror extractCommentsAppendix matter remark_parse renderChunk).

Lemma paragraph_loop_acc children : forall paragraphContent,
  paragraph_loop Err children paragraphContent
  = match paragraph_loop Err children [] with
    | Returned l => Returned (paragraphContent ++ l)
    | Thrown e => Thrown e
    | Diverged => Diverged
    end.
Proof.
  induction children as [|child children IH]; intros acc; simpl.
  - rewrite app_nil_r. reflexivity.
  - destruct (md_type child =? "text")%string.
    + destruct (md_value child) as [textValue|]; [|reflexivity].
      destruct (scan_text_scanned textValue acc) as (l0 & Hacc & Hnil & _).
      rewrite Hacc, Hnil. simpl. rewrite IH. symmetry. rewrite IH.
      destruct (paragraph_loop Err children []); try reflexivity.
      rewrite app_assoc. reflexivity.
    + rewrite IH. symmetry. rewrite IH.
      destruct (paragraph_loop Err children []); try reflexivity.
      rewrite app_assoc. reflexivity.
Qed.

Lemma paragraph_loop_app_acc before : forall after paragraphContent,
  paragraph_loop Err (before ++ after) paragraphContent
  = match paragraph_loop Err before paragraphContent with
    | Returned l => paragraph_loop Err after l
    | Thrown e => Thrown e
    | Diverged => Diverged
    end.
Proof.
  induction before as [|child before IH]; intros after acc; simpl; [reflexivity|].
  destruct (md_type child =? "text")%string.
  - destruct (md_value child) as [textValue|]; [|reflexivity].
    destruct (of_bounded Err (scan_text textValue acc)); auto.
  - apply IH.
Qed.

(** The inline children of a paragraph contribute one after the other,
    each on its own: the content for a list of children followed by
    another is the content for the first list followed by the content for
    the second, and a failure in the first list is the failure of the
    whole.  A marker that starts in one child and ends in another is
    therefore never recognised. *)
Theorem paragraph_children_contribute_one_by_one before after :
  paragraph_loop Err (before ++ after) []
  = match paragraph_loop Err before [] with
    | Returned first =>
        match paragraph_loop Err after [] with
        | Returned second => Returned (first ++ second)
        | Thrown e => Thrown e
        | Diverged => Diverged
        end
    | Thrown e => Thrown e
    | Diverged => Diverged
    end.
Proof.
  rewrite paragraph_loop_app_acc.
  destruct (paragraph_loop Err before []) as [first|e|]; try reflexivity.
  apply paragraph_loop_acc.
Qed.

Lemma block_trace node t o t' :
  one_block node t = (o, t') ->
  t' = t ++ (if is_chunk node then [call_of node] else []).
Proof.
  unfold block. destruct (is_chunk node).
  - unfold bind, await_renderChunk, ret, call_of.
    destruct (renderChunk t (md_value node) (or_empty (md_lang node)));
      intros [= <- <-]; reflexivity.
  - unfold lift. intros [= <- <-]. rewrite app_nil_r. reflexivity.
Qed.

Lemma block_quarto_calls node t pushed t' :
  one_block node t = (Returned pushed, t') ->
  quarto_calls pushed = if is_chunk node then [call_of node] else [].
Proof.
  unfold block. destruct (is_chunk node).
  - unfold bind, await_renderChunk, ret, call_of.
    destruct (renderChunk t (md_value node) (or_empty (md_lang node)));
      intros [= <- <-]; reflexivity.
  - unfold lift, markdown_node.
    destruct (md_type node =? "heading")%string; [intros [= <- <-]; reflexivity|].
    destruct (md_type node =? "paragraph")%string; [|intros [= <- <-]; reflexivity].
    destruct (md_children node) as [children|]; [|discriminate].
    destruct (paragraph_loop Err children []); intros [= <- <-]. reflexivity.
Qed.

Lemma quarto_calls_app a b : quarto_calls (a ++ b) = quarto_calls a ++ quarto_calls b.
Proof. apply flat_map_app. Qed.

Lemma block_loop_trace children : forall acc t o t',
  all_blocks children acc t = (o, t') ->
  (exists k, t' = t ++ List.map call_of (firstn k (filter is_chunk children)))
  /\ (forall nodes,
        o = Returned nodes ->
        t' = t ++ List.map call_of (filter is_chunk children)
        /\ quarto_calls nodes
           = quarto_calls acc ++ List.map call_of (filter is_chunk children)).
Proof.
  induction children as [|node children IH]; intros acc t o t'.
  - intros [= <- <-]. split.
    + exists 0. rewrite app_nil_r. reflexivity.
    + intros nodes [= <-]. rewrite !app_nil_r. auto.
  - rewrite block_loop_cons.
    destruct (one_block node t) as [[pushed|e|] t1] eqn:Hb;
      pose proof (block_trace _ _ Hb) as Ht1.
    + pose proof (block_quarto_calls _ _ Hb) as Hq.
      intros H. destruct (IH _ _ _ _ H) as [(k & Hk) Hret].
      simpl filter. destruct (is_chunk node).
      * split.
        -- exists (S k). rewrite Hk, Ht1. simpl. rewrite <- app_assoc. reflexivity.
        -- intros nodes Ho. destruct (Hret nodes Ho) as [E1 E2].
           rewrite E1, E2, Ht1, quarto_calls_app, Hq. simpl.
           rewrite <- !app_assoc. auto.
      * rewrite app_nil_r in Ht1. subst t1. split.
        -- exists k. exact Hk.
        -- intros nodes Ho. destruct (Hret nodes Ho) as [E1 E2].
           rewrite E1, E2, quarto_calls_app, Hq, app_nil_r. auto.
    + intros [= <- <-]. split; [|discriminate].
      simpl filter. destruct (is_chunk node).
      * exists 1. rewrite Ht1. destruct (filter is_chunk children); reflexivity.
      * exists 0. exact Ht1.
    + intros [= <- <-]. split; [|discriminate].
      simpl filter. destruct (is_chunk node).
      * exists 1. rewrite Ht1. destruct (filter is_chunk children); reflexivity.
      * exists 0. exact Ht1.
Qed.

(** The renderer is called for chunks only, one chunk after the other in
    the order of the blocks: whatever the outcome of the loop, the calls
    it has added are those of the first chunks of the document, and when
    the loop returns they are the calls of all the chunks, each made once,
    and they are the code and options of the quartoBlock nodes it has
    pushed. *)
Theorem renderer_calls_follow_chunks children acc t o t' :
  all_blocks children acc t = (o, t') ->
  (exists k, t' = t ++ List.map call_of (firstn k (filter is_chunk children)))
  /\ (forall nodes,
        o = Returned nodes ->
        t' = t ++ List.map call_of (filter is_chunk children)
        /\ quarto_calls nodes
           = quarto_calls acc ++ List.map call_of (filter is_chunk children)).
Proof. apply block_loop_trace. Qed.

(** In every result of qmdToProseMirror the calls of the renderer made
    during the parse are exactly the code and options of the quartoBlock
    nodes of the content, in the same order, one call for each node. *)
Theorem one_render_per_quarto_block qmdString t r t' :
  parse_qmd qmdString t = (Returned r, t') ->
  t' = t ++ quarto_calls (content (prosemirrorJson r)).
Proof.
  intros H.
  destruct (qmdToProseMirror_returns _ _ _ _ _ _ H)
    as (remaining & markdown & tree & children & _ & _ & _ & _ & Hb).
  destruct (block_loop_trace _ _ _ Hb) as [_ Hret].
  destruct (Hret _ eq_refl) as [E1 E2]. rewrite E1, E2. reflexivity.
Qed.

Lemma paragraph_loop_texts children : forall paragraphContent l,
  paragraph_loop Err children paragraphContent = Returned l ->
  exists added,
    l = paragraphContent ++ added
    /\ subseq (List.concat (List.map text added)) (child_values children).
Proof.
  induction children as [|child children IH]; intros acc l; simpl.
  - intros [= <-]. exists []. rewrite app_nil_r. split; [reflexivity|constructor].
  - unfold child_values. simpl. fold (child_values children).
    destruct (md_type child =? "text")%string.
    + destruct (md_value child) as [textValue|]; [|discriminate].
      destruct (scan_text_scanned textValue acc) as (l0 & Hacc & _ & HS).
      rewrite Hacc. simpl. intros H.
      destruct (IH _ _ H) as (added & -> & Hsub).
      exists (l0 ++ added). split; [symmetry; apply app_assoc|].
      rewrite map_app, concat_app.
      apply subseq_app; [apply Scanned_subseq; exact HS|exact Hsub].
    + intros H. destruct (IH _ _ H) as (added & -> & Hsub).
      exists (plain (or_empty (md_value child)) :: added).
      split; [rewrite <- app_assoc; reflexivity|].
      simpl. apply subseq_app; [apply subseq_refl|exact Hsub].
Qed.

(** The text of a paragraph comes from its direct children and from
    nowhere else: when the loop over the children returns, the texts of
    the content, put together, are the values of the children, put
    together, with some characters left out.  No character is added and
    none changes its place; what the children of an inline child hold
    (the text of a bold or linked passage) is not in the content. *)
Theorem paragraph_text_comes_from_children children paragraphContent :
  paragraph_loop Err children [] = Returned paragraphContent ->
  subseq (List.concat (List.map text paragraphContent)) (child_values children)
  /\ List.length (List.concat (List.map text paragraphContent))
     <= List.length (child_values children).
Proof.
  intros H. destruct (paragraph_loop_texts _ _ H) as (added & -> & Hsub).
  split; [exact Hsub|]. apply subseq_length. exact Hsub.
Qed.

End ParserFurther.

Lemma paragraph_text_comes_from_children_witness :
  subseq (js "see world") (js "see " ++ jsq "[world]{.comment ref='c1'}")
  /\ List.length (js "see world")
     <= List.length (js "see " ++ jsq "[world]{.comment ref='c1'}").
Proof.
  apply (@paragraph_text_comes_from_children
           unit
           [md_text (js "see "); md_strong [md_text (js "this")];
            md_text (jsq "[world]{.comment ref='c1'}")]
           [plain (js "see "); plain []; commented (js "world") (js "c1")]).
  reflexivity.
Defined.

Lemma renderer_calls_follow_chunks_witness :
  (exists k,
      [(Some (js "plot(x)"), js "r")]
      = [] ++ List.map call_of
                       (firstn k (filter is_chunk
                                         [md_heading 2 [md_text (js "Plot")];
                                          md_code (Some (js "r")) (js "plot(x)");
                                          md_paragraph [md_text (js "after")]])))
  /\ (forall nodes,
        Thrown (Raised tt) = Returned nodes ->
        [(Some (js "plot(x)"), js "r")]
        = [] ++ List.map call_of
                         (filter is_chunk
                                 [md_heading 2 [md_text (js "Plot")];
                                  md_code (Some (js "r")) (js "plot(x)");
                                  md_paragraph [md_text (js "after")]])
        /\ quarto_calls nodes
           = quarto_calls []
               ++ List.map call_of
                    (filter is_chunk
                            [md_heading 2 [md_text (js "Plot")];
                             md_code (Some (js "r")) (js "plot(x)");
                             md_paragraph [md_text (js "after")]])).
Proof.
  apply (@renderer_calls_follow_chunks
           unit rejecting_renderChunk
           [md_heading 2 [md_text (js "Plot")];
            md_code (Some (js "r")) (js "plot(x)");
            md_paragraph [md_text (js "after")]]
           [] [] (Thrown (Raised tt)) [(Some (js "plot(x)"), js "r")]).
  reflexivity.
Defined.

Lemma one_render_per_quarto_block_witness :
  [(Some (js "plot(x)"), js "r")]
  = [] ++ quarto_calls (content (prosemirrorJson chunk_result)).
Proof.
  apply (@one_render_per_quarto_block
           unit (list jsstring) unit
           plain_extract no_front_matter chunk_parse payload_renderChunk
           (js "doc") [] chunk_result [(Some (js "plot(x)"), js "r")]).
  reflexivity.
Defined.

(* ===================================================================== *)
(** * Further properties of the cache keys *)
(* ===================================================================== *)

Lemma starts_with_spec p s : starts_with p s = true <-> exists t, s = p ++ t.
Proof.
  unfold starts_with. rewrite eqb_eq. split.
  - intros H. exists (skipn (List.length p) s).
    rewrite <- (firstn_skipn (List.length p) s) at 1. rewrite H. reflexivity.
  - intros [t ->]. rewrite firstn_app, firstn_all, Nat.sub_diag. simpl.
    apply app_nil_r.
Qed.

Lemma ends_with_spec p s : ends_with p s = true <-> exists t, s = t ++ p.
Proof.
  unfold ends_with. rewrite starts_with_spec. split.
  - intros [t H]. exists (rev t). apply (f_equal (@rev N)) in H.
    rewrite rev_involutive, rev_app_distr, rev_involutive in H. exact H.
  - intros [t ->]. exists (rev t). apply rev_app_distr.
Qed.

(** Where a character occurs first, and where it occurs last, decides how
    a string splits around it. *)
Lemma split_at_first (x : N) a : forall a' b b',
  ~ In x a -> ~ In x a' -> a ++ x :: b = a' ++ x :: b' -> a = a' /\ b = b'.
Proof.
  induction a as [|y a IH]; intros [|y' a'] b b' Ha Ha' E; simpl in E.
  - injection E as <-. auto.
  - injection E as <- _. exfalso. apply Ha'. left. reflexivity.
  - injection E as -> _. exfalso. apply Ha. left. reflexivity.
  - injection E as <- E. destruct (IH a' b b') as [-> ->]; auto.
    + intros H. apply Ha. right. exact H.
    + intros H. apply Ha'. right. exact H.
Qed.

Lemma split_at_last (x : N) a a' b b' :
  ~ In x b -> ~ In x b' -> a ++ x :: b = a' ++ x :: b' -> a = a' /\ b = b'.
Proof.
  intros Hb Hb' E. apply (f_equal (@rev N)) in E.
  rewrite !rev_app_distr in E. simpl in E. rewrite <- !app_assoc in E. simpl in E.
  apply split_at_first in E; try (rewrite <- in_rev; assumption).
  destruct E as [E1 E2]. split; apply rev_inj; assumption.
Qed.

Lemma app_inj_length (A : Type) (a : list A) : forall a' b b',
  List.length b = List.length b' -> a ++ b = a' ++ b' -> a = a' /\ b = b'.
Proof.
  induction a as [|y a IH]; intros [|y' a'] b b' Hlen E; simpl in E.
  - auto.
  - exfalso. apply (f_equal (@List.length A)) in E. simpl in E.
    rewrite length_app in E. lia.
  - exfalso. apply (f_equal (@List.length A)) in E. simpl in E.
    rewrite length_app in E. lia.
  - injection E as <- E. destruct (IH a' b b' Hlen E) as [-> ->]. auto.
Qed.

Lemma no_slash_In s : no_slash s = true -> ~ In slash s.
Proof. apply (forallb_not_In 47). Qed.

Lemma no_hyphen_In s : no_hyphen s = true -> ~ In 45%N s.
Proof. apply (forallb_not_In 45). Qed.

Lemma plain_no_slash s : plain_segment s = true -> no_slash s = true.
Proof. intros H. apply plain_segment_spec in H. tauto. Qed.

(** The two helpers on well-formed arguments, with the path written out. *)
Lemma cache_filename_path proc repoId docFilepath commitHash :
  is_absolute (__dirname proc) = true ->
  no_slash repoId = true -> no_slash commitHash = true ->
  calculateCacheFilename proc repoId docFilepath commitHash
  = (CACHE_DIR proc ++ js "/rendered_docs/")
      ++ repoId ++ 45%N
      :: Crypto.digest_hex (Crypto.update Crypto.createHash_md5 docFilepath)
      ++ 45%N :: commitHash ++ js ".json".
Proof.
  intros Habs Hr Hc.
  destruct (CACHE_DIR_rooted proc Habs) as (segs & Hroot).
  destruct (digest_hex_form (Crypto.update Crypto.createHash_md5 docFilepath))
    as [Hlen Hhex].
  destruct (@join_rooted _ segs [js "rendered_docs"] Hroot)
    as [Hdocs Hdocs_root]; [discriminate|repeat constructor|].
  unfold calculateCacheFilename, CACHE_DIR_RENDERED_DOCS. rewrite Hdocs.
  destruct (@join_rooted
              _ _ [repoId ++ js "-"
                     ++ Crypto.digest_hex
                          (Crypto.update Crypto.createHash_md5 docFilepath)
                     ++ js "-" ++ commitHash ++ js ".json"] Hdocs_root)
    as [E _]; [discriminate| |].
  - constructor; [|constructor]. apply long_name_plain.
    + rewrite !no_slash_app, Hr, Hc, (hex_no_slash _ Hhex). reflexivity.
    + rewrite !length_app, Hlen. simpl. lia.
  - rewrite E. rewrite <- !app_assoc. reflexivity.
Qed.

Lemma asset_dir_path proc repoId docFilename commitHash :
  is_absolute (__dirname proc) = true ->
  plain_segment repoId = true -> plain_segment commitHash = true ->
  calculateAssetCacheDir proc repoId docFilename commitHash
  = (CACHE_DIR proc ++ js "/assets/")
      ++ repoId ++ slash :: commitHash ++ slash
      :: Path.parse_name docFilename ++ js "_files"
  /\ exists segs, rooted (calculateAssetCacheDir proc repoId docFilename commitHash)
                         segs.
Proof.
  intros Habs Hr Hc.
  destruct (CACHE_DIR_rooted proc Habs) as (segs & Hroot).
  destruct (@join_rooted _ segs
              [js "assets"; repoId; commitHash; parse_name docFilename ++ js "_files"]
              Hroot) as [E Hrooted]; [discriminate| |].
  - repeat constructor; auto using files_dir_plain.
  - unfold calculateAssetCacheDir. rewrite E. split.
    + rewrite <- !app_assoc. reflexivity.
    + eexists. exact Hrooted.
Qed.

(** The cache entries of two requests are the same file only if the
    requests agree: for an absolute module directory, repository ids
    without slash and commit references without slash and without hyphen
    (such as the hashes that git gives), calculateCacheFilename returns
    the same path for two triples exactly when the repository ids are
    equal, the commit references are equal and the file paths have the
    same MD5 digest.  In particular a new commit never reuses the entry
    of an older one. *)
Theorem cache_entry_names_its_key proc repoId1 docFilepath1 commitHash1
        repoId2 docFilepath2 commitHash2 :
  is_absolute (__dirname proc) = true ->
  no_slash repoId1 = true -> no_slash repoId2 = true ->
  no_slash commitHash1 = true -> no_slash commitHash2 = true ->
  no_hyphen commitHash1 = true -> no_hyphen commitHash2 = true ->
  calculateCacheFilename proc repoId1 docFilepath1 commitHash1
  = calculateCacheFilename proc repoId2 docFilepath2 commitHash2
  <-> (repoId1 = repoId2 /\ commitHash1 = commitHash2
       /\ Crypto.digest_hex (Crypto.update Crypto.createHash_md5 docFilepath1)
          = Crypto.digest_hex (Crypto.update Crypto.createHash_md5 docFilepath2)).
Proof.
  intros Habs Hr1 Hr2 Hc1 Hc2 Hh1 Hh2.
  rewrite !cache_filename_path by assumption.
  destruct (digest_hex_form (Crypto.update Crypto.createHash_md5 docFilepath1))
    as [Hlen1 _].
  destruct (digest_hex_form (Crypto.update Crypto.createHash_md5 docFilepath2))
    as [Hlen2 _].
  set (h1 := Crypto.digest_hex (Crypto.update Crypto.createHash_md5 docFilepath1)) in *.
  set (h2 := Crypto.digest_hex (Crypto.update Crypto.createHash_md5 docFilepath2)) in *.
  split.
  - intros E. apply app_inv_head in E.
    change (repoId1 ++ 45%N :: h1 ++ 45%N :: commitHash1 ++ js ".json")
      with (repoId1 ++ [45%N] ++ h1 ++ [45%N] ++ commitHash1 ++ js ".json") in E.
    change (repoId2 ++ 45%N :: h2 ++ 45%N :: commitHash2 ++ js ".json")
      with (repoId2 ++ [45%N] ++ h2 ++ [45%N] ++ commitHash2 ++ js ".json") in E.
    rewrite !app_assoc in E. apply app_inv_tail in E.
    rewrite <- (app_assoc _ [45%N] commitHash1) in E.
    rewrite <- (app_assoc _ [45%N] commitHash2) in E.
    apply split_at_last in E; try (apply no_hyphen_In; assumption).
    destruct E as [E ->].
    apply app_inj_length in E; [|congruence]. destruct E as [E ->].
    apply app_inj_tail in E. destruct E as [-> _]. auto.
  - intros (-> & -> & ->). reflexivity.
Qed.

(** The asset directories of two requests are the same directory exactly
    when the repository ids are equal, the commit references are equal
    and the documents have the same name without extension: for an
    absolute module directory and ids and references that are plain
    segments.  The directory of a document is thus shared with every
    document of the same name in another directory of the repository. *)
Theorem asset_directory_names_its_key proc repoId1 docFilename1 commitHash1
        repoId2 docFilename2 commitHash2 :
  is_absolute (__dirname proc) = true ->
  plain_segment repoId1 = true -> plain_segment repoId2 = true ->
  plain_segment commitHash1 = true -> plain_segment commitHash2 = true ->
  calculateAssetCacheDir proc repoId1 docFilename1 commitHash1
  = calculateAssetCacheDir proc repoId2 docFilename2 commitHash2
  <-> (repoId1 = repoId2 /\ commitHash1 = commitHash2
       /\ Path.parse_name docFilename1 = Path.parse_name docFilename2).
Proof.
  intros Habs Hr1 Hr2 Hc1 Hc2.
  rewrite (proj1 (@asset_dir_path proc _ docFilename1 _ Habs Hr1 Hc1)).
  rewrite (proj1 (@asset_dir_path proc _ docFilename2 _ Habs Hr2 Hc2)).
  split.
  - intros E. apply app_inv_head in E.
    apply split_at_first in E;
      try (apply no_slash_In, plain_no_slash; assumption).
    destruct E as [-> E].
    apply split_at_first in E;
      try (apply no_slash_In, plain_no_slash; assumption).
    destruct E as [-> E]. apply app_inv_tail in E. auto.
  - intros (-> & -> & ->). reflexivity.
Qed.

(** The address that the test expects for the image and the file that it
    looks for in the asset directory name the same location: what follows
    [/api/assets/] in the address is what follows the [assets] directory
    of the cache in the path of the file, for an absolute module directory
    and a commit reference that is a plain segment. *)
Theorem image_address_mirrors_asset_file proc commitHash :
  is_absolute (__dirname proc) = true ->
  plain_segment commitHash = true ->
  exists location,
    expectedImgSrc commitHash = js "/api/assets/" ++ location
    /\ Path.join [calculateAssetCacheDir proc MOCK_REPO_ID TEST_DOC_FILENAME
                                         commitHash;
                  TEST_IMAGE_FILENAME]
       = CACHE_DIR proc ++ js "/assets/" ++ location.
Proof.
  intros Habs Hc.
  exists (MOCK_REPO_ID ++ js "/" ++ commitHash ++ js "/"
            ++ Path.parse_name TEST_DOC_FILENAME ++ js "_files/"
            ++ TEST_IMAGE_FILENAME).
  split; [reflexivity|].
  destruct (@asset_dir_path proc MOCK_REPO_ID TEST_DOC_FILENAME commitHash
                            Habs eq_refl Hc) as [E (segs & Hrooted)].
  destruct (@join_rooted _ segs [TEST_IMAGE_FILENAME] Hrooted) as [J _];
    [discriminate|repeat constructor|].
  rewrite J, E.
  change (Path.parse_name TEST_DOC_FILENAME) with (js "doc").
  rewrite <- !app_assoc. simpl. rewrite <- !app_assoc. reflexivity.
Qed.

(** The recursive removal of the asset directory of MOCK_REPO_ID touches
    the asset directory of a request exactly when the request is for
    MOCK_REPO_ID itself: a repository whose id only begins with
    MOCK_REPO_ID keeps its assets.  For an absolute module directory and
    ids and commit references that are plain segments. *)
Theorem asset_cleanup_is_for_one_repository proc repoId docFilename commitHash :
  is_absolute (__dirname proc) = true ->
  plain_segment repoId = true -> plain_segment commitHash = true ->
  inside (assetCacheDirForRepo proc)
         (calculateAssetCacheDir proc repoId docFilename commitHash) = true
  <-> repoId = MOCK_REPO_ID.
Proof.
  intros Habs Hr Hc.
  destruct (CACHE_DIR_rooted proc Habs) as (segs & Hroot).
  destruct (@join_rooted _ segs [js "assets"; MOCK_REPO_ID] Hroot)
    as [D _]; [discriminate|repeat constructor|].
  assert (HD : assetCacheDirForRepo proc
               = (CACHE_DIR proc ++ js "/assets/") ++ MOCK_REPO_ID).
  { unfold assetCacheDirForRepo. rewrite D, <- app_assoc. reflexivity. }
  rewrite HD, (proj1 (@asset_dir_path proc _ docFilename _ Habs Hr Hc)).
  unfold inside. rewrite orb_true_iff, eqb_eq, starts_with_spec.
  pose proof (@no_slash_In _ (@plain_no_slash _ Hr)) as Hns.
  split.
  - intros [E | [t E]].
    + apply app_inv_head in E. exfalso.
      assert (Hin : In slash MOCK_REPO_ID).
      { rewrite <- E. apply in_or_app. right. left. reflexivity. }
      revert Hin. apply no_slash_In. reflexivity.
    + rewrite <- !app_assoc in E. apply app_inv_head in E.
      apply app_inv_head in E.
      change (js "/" ++ t) with (slash :: t) in E.
      apply split_at_first in E; [tauto|exact Hns|].
      apply no_slash_In. reflexivity.
  - intros ->. right. eexists. rewrite <- !app_assoc. reflexivity.
Qed.

Lemma hex_after_hyphen_not_in_id r : forall h,
  forallb Crypto.is_hex_digit h = true -> r ++ 45%N :: h = MOCK_REPO_ID -> False.
Proof.
  intros h Hh E. remember MOCK_REPO_ID as m eqn:Hm. vm_compute in Hm. subst m.
  repeat (destruct r as [|? r]; simpl in E;
          [ first [ discriminate E
                  | injection E as E; subst h; vm_compute in Hh; discriminate Hh ]
          | injection E as _ E ]).
  destruct r; discriminate E.
Qed.

Lemma forallb_firstn (A : Type) (f : A -> bool) n (l : list A) :
  forallb f l = true -> forallb f (firstn n l) = true.
Proof.
  rewrite !forallb_forall. intros H x Hx. apply H.
  rewrite <- (firstn_skipn n l). apply in_or_app. left. exact Hx.
Qed.

(** The name of an entry begins with MOCK_REPO_ID only if its repository
    id does: no hexadecimal digest can stand for the rest of the id. *)
Lemma entry_prefix r h t :
  List.length h = 32 -> forallb Crypto.is_hex_digit h = true ->
  starts_with MOCK_REPO_ID (r ++ 45%N :: h ++ t) = starts_with MOCK_REPO_ID r.
Proof.
  intros Hlen Hhex. destruct (starts_with MOCK_REPO_ID r) eqn:Hr.
  - apply starts_with_spec in Hr as [t' ->]. apply starts_with_spec.
    eexists. rewrite <- app_assoc. reflexivity.
  - destruct (starts_with MOCK_REPO_ID (r ++ 45%N :: h ++ t)) eqn:Hs; [|reflexivity].
    exfalso. unfold starts_with in Hs, Hr. apply eqb_eq in Hs.
    change (List.length MOCK_REPO_ID) with 18 in Hs, Hr.
    rewrite firstn_app in Hs.
    destruct (Nat.le_gt_cases 18 (List.length r)) as [Hge|Hlt].
    + replace (18 - List.length r) with 0 in Hs by lia.
      rewrite firstn_0, app_nil_r in Hs. rewrite Hs in Hr. discriminate Hr.
    + rewrite firstn_all2 in Hs by lia.
      destruct (18 - List.length r) as [|n] eqn:Hn; [lia|].
      rewrite firstn_cons, firstn_app in Hs.
      replace (n - List.length h) with 0 in Hs by lia.
      rewrite firstn_0, app_nil_r in Hs.
      apply (@hex_after_hyphen_not_in_id r (firstn n h)); [|exact Hs].
      apply forallb_firstn. exact Hhex.
Qed.

(** Which entries the cleanups select.  For an absolute module
    directory, a repository id and a commit reference without slash, the
    cache entry is the file, directly in the rendered-documents
    directory, whose name is the id, the digest and the reference joined
    by hyphens, with [.json] behind; that name is a plain segment, as
    the names that readdir lists are, and the path that the loops join
    for it is the path of the entry.  The name passes the test of the
    cleanup before each test, and the test of the cleanup after all
    tests, exactly when the repository id begins with MOCK_REPO_ID: for
    MOCK_REPO_ID itself with every document and every commit, and also
    for any id without slash that only begins with MOCK_REPO_ID. *)
Theorem rendered_cleanup_goes_by_prefix proc repoId docFilepath commitHash :
  is_absolute (__dirname proc) = true ->
  no_slash repoId = true -> no_slash commitHash = true ->
  let file :=
    repoId ++ js "-"
      ++ Crypto.digest_hex (Crypto.update Crypto.createHash_md5 docFilepath)
      ++ js "-" ++ commitHash ++ js ".json" in
  plain_segment file = true
  /\ calculateCacheFilename proc repoId docFilepath commitHash
     = CACHE_DIR_RENDERED_DOCS proc ++ js "/" ++ file
  /\ Path.join [CACHE_DIR_RENDERED_DOCS proc; file]
     = calculateCacheFilename proc repoId docFilepath commitHash
  /\ removed_before_each file = starts_with MOCK_REPO_ID repoId
  /\ removed_after_all file = starts_with MOCK_REPO_ID repoId.
Proof.
  intros Habs Hr Hc file.
  destruct (digest_hex_form (Crypto.update Crypto.createHash_md5 docFilepath))
    as [Hlen Hhex].
  assert (Hplain : plain_segment file = true).
  { apply long_name_plain.
    - unfold file. rewrite !no_slash_app, Hr, Hc, (hex_no_slash _ Hhex). reflexivity.
    - unfold file. rewrite !length_app, Hlen. simpl. lia. }
  destruct (CACHE_DIR_rooted proc Habs) as (segs & Hroot).
  destruct (@join_rooted _ segs [js "rendered_docs"] Hroot)
    as [Hdocs Hdocs_root]; [discriminate|repeat constructor|].
  assert (Hpath : calculateCacheFilename proc repoId docFilepath commitHash
                  = CACHE_DIR_RENDERED_DOCS proc ++ js "/" ++ file).
  { unfold calculateCacheFilename. fold file. unfold CACHE_DIR_RENDERED_DOCS.
    rewrite Hdocs.
    destruct (@join_rooted _ _ [file] Hdocs_root) as [E _];
      [discriminate|repeat constructor; exact Hplain|].
    exact E. }
  split; [exact Hplain|]. split; [exact Hpath|]. split; [reflexivity|].
  assert (Hp : starts_with MOCK_REPO_ID file = starts_with MOCK_REPO_ID repoId).
  { exact (@entry_prefix repoId _ (js "-" ++ commitHash ++ js ".json") Hlen Hhex). }
  assert (He : ends_with (js ".json") file = true).
  { apply ends_with_spec. unfold file. eexists. rewrite !app_assoc. reflexivity. }
  unfold removed_before_each, removed_after_all. rewrite Hp, He, andb_true_r. auto.
Qed.

Lemma rendered_cleanup_goes_by_prefix_witness :
  removed_before_each
    (longer_repo_id ++ js "-"
       ++ Crypto.digest_hex (Crypto.update Crypto.createHash_md5 TEST_DOC_FILENAME)
       ++ js "-" ++ test_commit ++ js ".json")
  = true
  /\ calculateCacheFilename first_run longer_repo_id TEST_DOC_FILENAME test_commit
     = CACHE_DIR_RENDERED_DOCS first_run ++ js "/"
         ++ (longer_repo_id ++ js "-"
               ++ Crypto.digest_hex
                    (Crypto.update Crypto.createHash_md5 TEST_DOC_FILENAME)
               ++ js "-" ++ test_commit ++ js ".json").
Proof.
  pose proof (@rendered_cleanup_goes_by_prefix
                first_run longer_repo_id TEST_DOC_FILENAME test_commit
                eq_refl eq_refl eq_refl) as H.
  cbv zeta in H. destruct H as (_ & Hpath & _ & Hbefore & _).
  split; [|exact Hpath]. rewrite Hbefore. reflexivity.
Defined.

Lemma cache_entry_names_its_key_witness :
  calculateCacheFilename first_run MOCK_REPO_ID TEST_DOC_FILENAME test_commit
  <> calculateCacheFilename first_run MOCK_REPO_ID TEST_DOC_FILENAME later_commit.
Proof.
  intros E.
  apply (proj1 (@cache_entry_names_its_key
                  first_run MOCK_REPO_ID TEST_DOC_FILENAME test_commit
                  MOCK_REPO_ID TEST_DOC_FILENAME later_commit
                  eq_refl eq_refl eq_refl eq_refl eq_refl eq_refl eq_refl)) in E.
  destruct E as (_ & E & _). vm_compute in E. discriminate E.
Defined.

Lemma asset_directory_names_its_key_witness :
  calculateAssetCacheDir first_run MOCK_REPO_ID chapter_doc test_commit
  = calculateAssetCacheDir first_run MOCK_REPO_ID appendix_doc test_commit.
Proof.
  apply (proj2 (@asset_directory_names_its_key
                  first_run MOCK_REPO_ID chapter_doc test_commit
                  MOCK_REPO_ID appendix_doc test_commit
                  eq_refl eq_refl eq_refl eq_refl eq_refl)).
  repeat split.
Defined.

Lemma image_address_mirrors_asset_file_witness :
  exists location,
    expectedImgSrc test_commit = js "/api/assets/" ++ location
    /\ Path.join [calculateAssetCacheDir first_run MOCK_REPO_ID TEST_DOC_FILENAME
                                         test_commit;
                  TEST_IMAGE_FILENAME]
       = CACHE_DIR first_run ++ js "/assets/" ++ location.
Proof.
  apply (@image_address_mirrors_asset_file first_run test_commit); reflexivity.
Defined.

Lemma asset_cleanup_is_for_one_repository_witness :
  inside (assetCacheDirForRepo first_run)
         (calculateAssetCacheDir first_run longer_repo_id TEST_DOC_FILENAME
                                 test_commit) = false.
Proof.
  destruct (inside (assetCacheDirForRepo first_run)
                   (calculateAssetCacheDir first_run longer_repo_id
                                           TEST_DOC_FILENAME test_commit))
    eqn:E; [|reflexivity].
  apply (proj1 (@asset_cleanup_is_for_one_repository
                  first_run longer_repo_id TEST_DOC_FILENAME test_commit
                  eq_refl eq_refl eq_refl)) in E.
  vm_compute in E. discriminate E.
Defined.

(* ===================================================================== *)
(** * The name of a repository *)
(* ===================================================================== *)

Lemma greedy_slashes n : greedy (Lit 47) at_end (repeat slash n) = Some [].
Proof. induction n as [|n IH]; [reflexivity|]. simpl. rewrite IH. reflexivity. Qed.

Lemma greedy_not_at_end u c :
  In c u -> c <> slash -> greedy (Lit 47) at_end u = None.
Proof.
  induction u as [|d u IH]; intros Hin Hc; [contradiction|]. simpl.
  destruct (N.eqb_spec d 47) as [->|Hd]; [|reflexivity].
  rewrite IH; [reflexivity| |exact Hc].
  destruct Hin as [<-|Hin]; [contradiction|exact Hin].
Qed.

Lemma replace_slashes_only n : replace_first trailing_slashes (repeat slash n) = [].
Proof.
  destruct n as [|n]; [reflexivity|]. simpl. rewrite greedy_slashes. reflexivity.
Qed.

(** The first replacement takes the slashes at the end, all of them and
    nothing else. *)
Lemma replace_trailing_slashes t c n :
  c <> slash ->
  replace_first trailing_slashes ((t ++ [c]) ++ repeat slash n) = t ++ [c].
Proof.
  intros Hc. induction t as [|d t IH]; simpl.
  - destruct (N.eqb_spec c 47) as [->|_]; [contradiction|].
    f_equal. apply replace_slashes_only.
  - destruct (N.eqb_spec d 47) as [->|_].
    + rewrite (@greedy_not_at_end _ c); [|rewrite !in_app_iff; simpl; auto|exact Hc].
      f_equal. exact IH.
    + f_equal. exact IH.
Qed.

Lemma git_suffix_some s rest : git_suffix s = Some rest -> s = js ".git" /\ rest = [].
Proof.
  unfold git_suffix.
  destruct s as [|a [|b [|c [|d [|e s]]]]]; simpl; try discriminate;
    repeat match goal with
           | |- context [(?x =? ?y)%N] => destruct (N.eqb_spec x y) as [->|_]
           end; try discriminate.
  intros [= <-]. split; reflexivity.
Qed.

Lemma replace_git_suffix name : replace_first git_suffix (name ++ js ".git") = name.
Proof.
  induction name as [|c name IH]; [reflexivity|].
  simpl. destruct (git_suffix (c :: name ++ js ".git")) as [rest|] eqn:E.
  - apply git_suffix_some in E as [E _]. exfalso.
    apply (f_equal (@List.length N)) in E. simpl in E. rewrite length_app in E.
    simpl in E. lia.
  - f_equal. exact IH.
Qed.

Lemma replace_no_git_suffix s :
  ends_with (js ".git") s = false -> replace_first git_suffix s = s.
Proof.
  induction s as [|c s IH]; intros H; [reflexivity|].
  simpl. destruct (git_suffix (c :: s)) as [rest|] eqn:E.
  - apply git_suffix_some in E as [E _]. rewrite E in H. discriminate H.
  - f_equal. apply IH. destruct (ends_with (js ".git") s) eqn:Hs; [|reflexivity].
    apply ends_with_spec in Hs as [t ->].
    rewrite <- H. symmetry. apply ends_with_spec. exists (c :: t). reflexivity.
Qed.

Lemma not_ending_in_slash s :
  ends_with [slash] s = false -> s = [] \/ exists t c, s = t ++ [c] /\ c <> slash.
Proof.
  intros H. destruct s as [|d s]; [left; reflexivity|right].
  destruct (@exists_last _ (d :: s)) as (t & c & E); [discriminate|].
  exists t, c. split; [exact E|]. intros ->. rewrite E in H.
  unfold ends_with in H. rewrite rev_app_distr in H. discriminate H.
Qed.

(** The cleaning of line 52 takes away the first character of the path,
    the slashes at its end and one [.git] in front of them, and nothing
    else.  A path that ends in [.git] and any number of slashes gives
    what stands in front of that [.git]; a path whose text in front of
    the slashes at the end ends neither in a slash nor in [.git] gives
    that text; and in every case the name is a beginning of the path
    without its first character, the rest being [.git] or nothing,
    followed by slashes only. *)
Theorem full_name_cleans_the_end c name n :
  full_name (c :: name ++ js ".git" ++ repeat slash n) = name
  /\ (ends_with [slash] name = false -> ends_with (js ".git") name = false ->
      full_name (c :: name ++ repeat slash n) = name)
  /\ (forall pathname,
        exists git k,
          (git = [] \/ git = js ".git")
          /\ skipn 1 pathname = full_name pathname ++ git ++ repeat slash k).
Proof.
  assert (H1 : forall c name n,
             full_name (c :: name ++ js ".git" ++ repeat slash n) = name).
  { intros c' name' n'. unfold full_name. cbn [skipn].
    assert (E : name' ++ js ".git" ++ repeat slash n'
                = ((name' ++ js ".gi") ++ [116%N]) ++ repeat slash n').
    { rewrite <- !app_assoc. reflexivity. }
    rewrite E, replace_trailing_slashes by discriminate.
    rewrite <- app_assoc. apply replace_git_suffix. }
  assert (H2 : forall c name n,
             ends_with [slash] name = false -> ends_with (js ".git") name = false ->
             full_name (c :: name ++ repeat slash n) = name).
  { intros c' name' n' Hs Hg. unfold full_name. cbn [skipn].
    destruct (not_ending_in_slash _ Hs) as [->|(t & d & -> & Hd)].
    - simpl. rewrite replace_slashes_only. reflexivity.
    - rewrite replace_trailing_slashes by exact Hd.
      apply replace_no_git_suffix. exact Hg. }
  split; [apply H1|]. split; [apply H2|].
  intros pathname. destruct pathname as [|d s].
  - exists [], 0. split; [auto|reflexivity].
  - cbn [skipn].
    assert (Hsplit : exists body k, s = body ++ repeat slash k
                                    /\ ends_with [slash] body = false).
    { clear. induction s as [|x s IH] using rev_ind.
      - exists [], 0. auto.
      - destruct (N.eqb_spec x slash) as [->|Hx].
        + destruct IH as (body & k & -> & Hb). exists body, (S k). split; [|exact Hb].
          rewrite <- app_assoc. f_equal.
          change [slash] with (repeat slash 1). rewrite <- repeat_app.
          rewrite Nat.add_comm. reflexivity.
        + exists (s ++ [x]), 0. rewrite app_nil_r. split; [reflexivity|].
          unfold ends_with. rewrite rev_app_distr. simpl. unfold starts_with. simpl.
          apply N.eqb_neq in Hx. rewrite Hx. reflexivity. }
    destruct Hsplit as (body & k & -> & Hb).
    destruct (ends_with (js ".git") body) eqn:Hg.
    + apply ends_with_spec in Hg as [stem ->].
      exists (js ".git"), k. split; [auto|].
      rewrite <- app_assoc. rewrite (H1 d stem k). reflexivity.
    + exists [], k. split; [auto|]. rewrite (H2 d body k Hb Hg). reflexivity.
Qed.

Lemma full_name_cleans_the_end_witness :
  full_name (js "/user/repo.git/") = js "user/repo"
  /\ full_name (js "/user/repo/") = js "user/repo".
Proof.
  destruct (@full_name_cleans_the_end 47%N (js "user/repo") 1) as (H1 & H2 & _).
  split; [exact H1|]. apply H2; reflexivity.
Defined.

(* ===================================================================== *)
(** * The documents of a repository *)
(* ===================================================================== *)

Lemma FsNode_induction (P : FsNode -> Prop) :
  P FsFile ->
  (forall files, Forall (fun e => P (snd e)) files -> P (FsDir files)) ->
  forall node, P node.
Proof.
  intros Hfile Hdir. fix IH 1. intros [|files]; [exact Hfile|]. apply Hdir.
  induction files as [|[name child] files IHfiles]; constructor;
    [apply IH|exact IHfiles].
Qed.

Lemma drop_common_app a b : drop_common a (a ++ b) = ([], b).
Proof.
  induction a as [|x a IH]; simpl; [destruct b; reflexivity|].
  rewrite (proj2 (eqb_eq x x) eq_refl). exact IH.
Qed.

Lemma segments_rooted p segs : rooted p segs -> segments p = segs.
Proof.
  intros (Hne & Hall & ->). unfold segments.
  change (slash :: join_slash segs) with ([] ++ slash :: join_slash segs).
  rewrite split_slash_app, split_join_slash; [|exact Hne|].
  - simpl. apply forallb_filter_id. apply forallb_forall. intros seg Hseg.
    rewrite Forall_forall in Hall.
    destruct (plain_segment_spec _ (Hall seg Hseg)) as (_ & _ & H0 & _).
    rewrite H0. reflexivity.
  - eapply Forall_impl; [|exact Hall]. intros seg Hseg.
    apply plain_segment_spec in Hseg. tauto.
Qed.

Lemma resolve_rooted cwd p segs : rooted p segs -> resolve cwd p = p.
Proof.
  intros (Hne & Hall & ->). unfold resolve. rewrite N.eqb_refl.
  rewrite normalizeString_rooted by assumption. reflexivity.
Qed.

(** From a directory to a path below it, [path.relative] gives the names
    in between. *)
Lemma relative_below cwd p q segs more :
  rooted p segs -> rooted q (segs ++ more) -> more <> [] ->
  relative cwd p q = join_slash more.
Proof.
  intros Hp Hq Hmore.
  assert (Hpq : eqb p q = false).
  { apply eqb_neq. intros ->. apply Hmore.
    pose proof (segments_rooted Hp) as E. rewrite (segments_rooted Hq) in E.
    apply (f_equal (@List.length jsstring)) in E. rewrite length_app in E.
    destruct more; [reflexivity|simpl in E; lia]. }
  unfold relative. rewrite Hpq, (resolve_rooted cwd Hp), (resolve_rooted cwd Hq), Hpq.
  rewrite (segments_rooted Hp), (segments_rooted Hq), drop_common_app. reflexivity.
Qed.

(** Whether a path ends in [.qmd] is decided by its last name. *)
Lemma ends_with_qmd_join start file :
  ends_with (js ".qmd") (start ++ slash :: file) = ends_with (js ".qmd") file.
Proof.
  unfold ends_with. rewrite rev_app_distr. simpl rev.
  destruct (rev file) as [|a [|b [|c [|d f]]]]; unfold starts_with; cbn;
    rewrite ?andb_false_r; reflexivity.
Qed.

Lemma listed_nil pre r : ~ listed (FsDir []) pre r.
Proof.
  intros (names & Hat & _). destruct names as [|n names]; simpl in Hat.
  - discriminate Hat.
  - destruct Hat as (child & [] & _).
Qed.

Lemma listed_cons name child files pre r :
  listed (FsDir ((name, child) :: files)) pre r
  <-> (exists names,
          file_at child names
          /\ ~ In (js ".git") (name :: names)
          /\ ends_with (js ".qmd") (last (name :: names) []) = true
          /\ r = backslashes_to_slashes (join_slash (pre ++ name :: names)))
      \/ listed (FsDir files) pre r.
Proof.
  split.
  - intros (names & Hat & Hgit & Hq & Hr). destruct names as [|n names].
    + discriminate Hat.
    + destruct Hat as (child' & [E|Hin] & Hat).
      * injection E as <- <-. left. exists names. auto.
      * right. exists (n :: names). repeat split; auto. exists child'. auto.
  - intros [(names & Hat & Hgit & Hq & Hr)|(names & Hat & Hgit & Hq & Hr)].
    + exists (name :: names). repeat split; auto. exists child. simpl. auto.
    + destruct names as [|n names]; [discriminate Hat|].
      destruct Hat as (child' & Hin & Hat).
      exists (n :: names). repeat split; auto. exists child'. simpl. auto.
Qed.

(** What a directory entry that is a directory contributes is what is
    listed below it. *)
Lemma listed_below name sub pre r :
  name <> js ".git" ->
  (exists names,
      file_at (FsDir sub) names
      /\ ~ In (js ".git") (name :: names)
      /\ ends_with (js ".qmd") (last (name :: names) []) = true
      /\ r = backslashes_to_slashes (join_slash (pre ++ name :: names)))
  <-> listed (FsDir sub) (pre ++ [name]) r.
Proof.
  intros Hname. split; intros (names & Hat & Hgit & Hq & Hr); exists names.
  - destruct names as [|n names]; [discriminate Hat|].
    split; [exact Hat|]. split; [intros H; apply Hgit; right; exact H|].
    split; [exact Hq|]. rewrite <- app_assoc. exact Hr.
  - destruct names as [|n names]; [discriminate Hat|].
    split; [exact Hat|]. split; [intros [H|H]; [congruence|exact (Hgit H)]|].
    split; [exact Hq|]. rewrite <- app_assoc in Hr. exact Hr.
Qed.

Section Listing.

Variables cwd projectDir : jsstring.
Variable segs0 : list jsstring.
Hypothesis Hproject : rooted projectDir segs0.

Lemma each_file_listing startPath pre recurse files :
  rooted startPath (segs0 ++ pre) ->
  Forall (fun e => plain_segment (fst e) = true /\ well_named (snd e)) files ->
  Forall (fun e =>
            forall entries filename,
              snd e = FsDir entries ->
              rooted filename (segs0 ++ pre ++ [fst e]) ->
              exists found,
                recurse filename (snd e) = Some found
                /\ forall r, In r found <-> listed (snd e) (pre ++ [fst e]) r)
         files ->
  forall results,
  exists found,
    each_file cwd projectDir startPath recurse files results = Some (results ++ found)
    /\ forall r, In r found <-> listed (FsDir files) pre r.
Proof.
  intros Hstart Hnames Hrec.
  induction files as [|[file node] files IH]; intros results.
  - exists []. rewrite app_nil_r. split; [reflexivity|].
    intros r. split; [contradiction|]. intros H. exact (listed_nil H).
  - inversion Hnames as [|? ? [Hfile Hnode] Hnames']; subst.
    inversion Hrec as [|? ? Hthis Hrec']; subst.
    simpl in Hfile, Hnode, Hthis. specialize (IH Hnames' Hrec').
    destruct (@join_rooted _ _ [file] Hstart) as [Hjoin Hrooted];
      [discriminate|repeat constructor; exact Hfile|].
    cbn [join_slash] in Hjoin, Hrooted. rewrite <- app_assoc in Hrooted.
    cbn [each_file]. destruct (eqb file (js ".git")) eqn:Hgit.
    + destruct (IH results) as (found & E & Hfound). exists found.
      split; [exact E|]. intros r. rewrite listed_cons, Hfound.
      split; [auto|]. intros [(names & _ & Hno & _)|H]; [|exact H].
      exfalso. apply Hno. left. apply eqb_eq. exact Hgit.
    + apply eqb_neq in Hgit. destruct node as [|sub].
      * rewrite Hjoin, ends_with_qmd_join.
        assert (Hfile_only : forall r,
                   (exists names,
                       file_at FsFile names
                       /\ ~ In (js ".git") (file :: names)
                       /\ ends_with (js ".qmd") (last (file :: names) []) = true
                       /\ r = backslashes_to_slashes
                                (join_slash (pre ++ file :: names)))
                   <-> (ends_with (js ".qmd") file = true
                        /\ r = backslashes_to_slashes (join_slash (pre ++ [file])))).
        { intros r. split.
          - intros (names & Hat & _ & Hq & Hr).
            destruct names as [|n names]; [auto|contradiction].
          - intros [Hq Hr]. exists []. repeat split; auto.
            intros [H|[]]. congruence. }
        destruct (ends_with (js ".qmd") file) eqn:Hq.
        -- rewrite (@relative_below cwd projectDir _ segs0 (pre ++ [file]) Hproject)
             by (try exact Hrooted; destruct pre; discriminate).
           destruct (IH (results
                           ++ [backslashes_to_slashes (join_slash (pre ++ [file]))]))
             as (found & E & Hfound).
           exists (backslashes_to_slashes (join_slash (pre ++ [file])) :: found).
           split; [rewrite E, <- app_assoc; reflexivity|].
           intros r. rewrite listed_cons, Hfile_only. simpl. rewrite Hfound.
           split; intros [H|H]; auto. destruct H as [_ H]. auto.
        -- destruct (IH results) as (found & E & Hfound). exists found.
           split; [exact E|]. intros r. rewrite listed_cons, Hfile_only, Hfound.
           split; [auto|]. intros [[H _]|H]; [discriminate H|exact H].
      * rewrite <- Hjoin in Hrooted.
        destruct (Hthis sub _ eq_refl Hrooted) as (below & Ebelow & Hbelow).
        rewrite Ebelow.
        destruct (IH (results ++ below)) as (found & E & Hfound).
        exists (below ++ found). split; [rewrite E, app_assoc; reflexivity|].
        intros r. rewrite listed_cons, in_app_iff, Hbelow, Hfound.
        rewrite (listed_below sub pre r Hgit). reflexivity.
Qed.

Lemma findQmdFiles_listing : forall node,
  well_named node ->
  forall entries startPath pre,
    node = FsDir entries ->
    rooted startPath (segs0 ++ pre) ->
    exists found,
      findQmdFiles cwd projectDir startPath node = Some found
      /\ forall r, In r found <-> listed node pre r.
Proof.
  induction node as [|files IH] using FsNode_induction; [discriminate|].
  intros Hwell entries startPath pre _ Hstart.
  inversion Hwell as [|files' Hnames]; subst.
  destruct (@each_file_listing
              startPath pre
              (fun filename node => findQmdFiles cwd projectDir filename node)
              files Hstart Hnames) with (results := @nil jsstring)
    as (found & E & Hfound).
  - clear Hstart Hwell. induction IH as [|[name child] files Hchild _ IHfiles];
      constructor.
    + intros sub filename Hsub Hrooted. simpl in *.
      inversion Hnames as [|? ? [_ Hw] _]; subst.
      exact (Hchild Hw sub filename (pre ++ [name]) eq_refl Hrooted).
    + apply IHfiles. inversion Hnames; assumption.
  - exists found. split; [exact E|exact Hfound].
Qed.

End Listing.

(** The documents that the route lists.  For a repository directory that
    is a normalized absolute path and a checkout whose names are plain
    segments, findQmdFiles returns, and its results are exactly the paths
    of the documents of the checkout: for every way down from the
    repository directory to something that is not a directory, through no
    entry named [.git] and ending at a name that ends in [.qmd], the names
    on that way joined by slashes, with every backslash of a name turned
    into a slash; and nothing else.  A directory that does not exist
    gives the empty list. *)
Theorem findQmdFiles_lists_the_documents cwd projectDir segs entries :
  rooted projectDir segs ->
  well_named (FsDir entries) ->
  qmdFiles cwd projectDir None = Some []
  /\ exists found,
      qmdFiles cwd projectDir (Some (FsDir entries)) = Some found
      /\ forall r,
          In r found
          <-> exists names,
                file_at (FsDir entries) names
                /\ ~ In (js ".git") names
                /\ ends_with (js ".qmd") (last names []) = true
                /\ r = backslashes_to_slashes (join_slash names).
Proof.
  intros Hproject Hwell. split; [reflexivity|].
  apply (@findQmdFiles_listing cwd projectDir segs Hproject (FsDir entries) Hwell
                               entries projectDir [] eq_refl).
  rewrite app_nil_r. exact Hproject.
Qed.

Lemma findQmdFiles_lists_the_documents_witness :
  qmdFiles (js "/") repo_dir None = Some []
  /\ exists found,
      qmdFiles (js "/") repo_dir (Some repo_tree) = Some found
      /\ forall r,
          In r found
          <-> exists names,
                file_at repo_tree names
                /\ ~ In (js ".git") names
                /\ ends_with (js ".qmd") (last names []) = true
                /\ r = backslashes_to_slashes (join_slash names).
Proof.
  unfold repo_tree.
  apply (@findQmdFiles_lists_the_documents
           (js "/") repo_dir [js "srv"; js "repos"; js "user"; js "repo"]).
  - split; [discriminate|]. split; [repeat constructor|reflexivity].
  - repeat constructor.
Defined.

Lemma REPOS_DIR_rooted proc :
  is_absolute (__dirname proc) = true -> exists segs, rooted (REPOS_DIR proc) segs.
Proof.
  unfold REPOS_DIR, is_absolute. destruct (__dirname proc) as [|c d]; [discriminate|].
  intros Hc. apply N.eqb_eq in Hc. subst c.
  set (X := push_segment false
              (push_segment false
                 (fold_left (push_segment false) (split_slash (slash :: d)) [])
                 [dot; dot])
              [dot; dot]).
  assert (HX : Forall (fun s => plain_segment s = true) X).
  { apply push_segment_keeps_plain; [|reflexivity].
    apply push_segment_keeps_plain; [|reflexivity].
    apply fold_push_keeps_plain; [constructor|apply split_slash_segments]. }
  exists (rev X ++ [js "repos"]).
  assert (Hplain : Forall (fun s => plain_segment s = true) (rev X ++ [js "repos"])).
  { apply Forall_app. split; [apply Forall_rev, HX|repeat constructor]. }
  assert (Hne : rev X ++ [js "repos"] <> []).
  { destruct (rev X); discriminate. }
  split; [exact Hne|]. split; [exact Hplain|].
  destruct (join_slash_plain_last Hne Hplain) as [Hj _].
  rewrite join_pair by discriminate.
  assert (Hn : normalizeString ((slash :: d) ++ slash :: js "../../repos") false
               = join_slash (rev X ++ [js "repos"])).
  { unfold normalizeString.
    rewrite split_slash_app, fold_left_app.
    change (split_slash (js "../../repos")) with [[dot; dot]; [dot; dot]; js "repos"].
    cbn [fold_left]. fold X.
    rewrite push_segment_plain by reflexivity. reflexivity. }
  destruct (join_slash (rev X ++ [js "repos"])) as [|q qs] eqn:E; [congruence|].
  apply (@normalize_absolute (d ++ slash :: js "../../repos")); [|exact Hn].
  change (slash :: d ++ slash :: js "../../repos")
      with ((slash :: d) ++ slash :: js "../../repos").
  rewrite last_app_nonempty by discriminate. reflexivity.
Qed.

(** Joining a name that holds one slash is joining its two parts. *)
Lemma join_two_parts (p a b : jsstring) :
  p <> [] -> a <> [] ->
  Path.join [p; (a ++ slash :: b : jsstring)] = Path.join [p; a; b] \/ b = [].
Proof.
  intros Hp Ha. destruct b as [|c b]; [right; reflexivity|left].
  unfold Path.join. simpl filter.
  apply eqb_neq in Hp, Ha. rewrite Hp, Ha.
  assert (H1 : eqb (a ++ slash :: c :: b) [] = false)
    by (apply eqb_neq; destruct a; discriminate).
  rewrite H1. simpl negb. cbv iota.
  destruct a; [apply eqb_neq in Ha; congruence|]. reflexivity.
Qed.

(** Where the clone of a repository lies.  For an absolute module
    directory, an owner and a repository name that are plain segments,
    the address path [/owner/name.git], with any number of slashes at its
    end, gives the project directory [owner/name] below the directory of
    the clones, a normalized absolute path: the path from which
    findQmdFiles starts and to which its results are relative. *)
Theorem project_directory_of_an_address proc owner name n :
  is_absolute (__dirname proc) = true ->
  plain_segment owner = true -> plain_segment name = true ->
  projectDir_of proc (js "/" ++ owner ++ js "/" ++ name ++ js ".git" ++ repeat slash n)
  = REPOS_DIR proc ++ js "/" ++ owner ++ js "/" ++ name
  /\ exists segs,
      rooted (projectDir_of proc (js "/" ++ owner ++ js "/" ++ name ++ js ".git"
                                     ++ repeat slash n)) segs.
Proof.
  intros Habs Ho Hn. destruct (REPOS_DIR_rooted proc Habs) as (segs & Hroot).
  assert (E : full_name (js "/" ++ owner ++ js "/" ++ name ++ js ".git"
                            ++ repeat slash n)
              = owner ++ slash :: name).
  { unfold full_name.
    assert (A : owner ++ js "/" ++ name ++ js ".git" ++ repeat slash n
                = (((owner ++ slash :: name) ++ js ".gi") ++ [116%N])
                    ++ repeat slash n).
    { rewrite <- !app_assoc. reflexivity. }
    change (skipn 1 (js "/" ++ owner ++ js "/" ++ name ++ js ".git"
                        ++ repeat slash n))
      with (owner ++ js "/" ++ name ++ js ".git" ++ repeat slash n).
    rewrite A, replace_trailing_slashes by discriminate.
    rewrite <- app_assoc. apply replace_git_suffix. }
  unfold projectDir_of. rewrite E.
  destruct (plain_segment_spec _ Ho) as (_ & Hone & _).
  destruct (plain_segment_spec _ Hn) as (_ & Hnne & _).
  assert (Hp : REPOS_DIR proc <> []).
  { destruct Hroot as (_ & _ & ->). discriminate. }
  destruct (join_two_parts name Hp Hone) as [J|J]; [|contradiction].
  rewrite J.
  destruct (@join_rooted _ segs [owner; name] Hroot) as [Hj Hr];
    [discriminate|repeat constructor; assumption|].
  rewrite Hj. split; [reflexivity|]. eexists. exact Hr.
Qed.

Lemma project_directory_of_an_address_witness :
  projectDir_of first_run (js "/user/repo.git/")
  = REPOS_DIR first_run ++ js "/user/repo"
  /\ exists segs, rooted (projectDir_of first_run (js "/user/repo.git/")) segs.
Proof.
  apply (@project_directory_of_an_address first_run (js "user") (js "repo") 1);
    reflexivity.
Defined.

(* ===================================================================== *)
(** * When the renderer is called *)
(* ===================================================================== *)

Section ParserCalls.

Variables Yaml Comments Err : Type.
Variable extractCommentsAppendix : jsstring -> outcome Err (Comments * jsstring).
Variable matter : jsstring -> outcome Err (Yaml * jsstring).
Variable remark_parse : jsstring -> outcome Err MdNode.
Variable renderChunk : Trace -> option jsstring -> jsstring -> outcome Err jsstring.

Local Abbreviation parse_document :=
  (qmdToProseMirror extractCommentsAppendix matter remark_parse renderChunk).

(** The renderer is not called before the document has been taken apart:
    whatever the outcome of qmdToProseMirror, if a call of renderChunk has
    been made during the parse, then the comment extractor, gray-matter
    and remark have all returned, the syntax tree has children, one of
    them is a code chunk, and the calls made are those for the first
    chunks of the tree.  A failure of one of the three, or a tree without
    chunk, leaves the renderer untouched. *)
Theorem renderer_is_called_after_parsing qmdString t o t' :
  parse_document qmdString t = (o, t') ->
  t' <> t ->
  exists comments remainingQmdString yaml markdown tree children node k,
    extractCommentsAppendix qmdString = Returned (comments, remainingQmdString)
    /\ matter remainingQmdString = Returned (yaml, markdown)
    /\ remark_parse markdown = Returned tree
    /\ md_children tree = Some children
    /\ In node children /\ is_chunk node = true
    /\ t' = t ++ List.map call_of (firstn k (filter is_chunk children)).
Proof.
  unfold qmdToProseMirror, bind, lift, ret, throw. intros H Ht.
  destruct (extractCommentsAppendix qmdString) as [[cm rem]|e|] eqn:Hx;
    try (injection H as _ <-; congruence).
  destruct (matter rem) as [[y md]|e|] eqn:Hy;
    try (injection H as _ <-; congruence).
  destruct (remark_parse md) as [tree|e|] eqn:Hr;
    try (injection H as _ <-; congruence).
  destruct (md_children tree) as [children|] eqn:Hc;
    try (injection H as _ <-; congruence).
  destruct (block_loop renderChunk children [] t) as [o1 t1] eqn:Hb.
  assert (Ht1 : t1 = t') by (destruct o1; injection H as _ <-; reflexivity).
  subst t1. destruct (@block_loop_trace Err renderChunk children [] t o1 t' Hb)
    as [(k & Hk) _].
  destruct (firstn k (filter is_chunk children)) as [|node l] eqn:Hf.
  - exfalso. apply Ht. rewrite Hk. apply app_nil_r.
  - assert (Hin : In node (filter is_chunk children)).
    { rewrite <- (firstn_skipn k (filter is_chunk children)), Hf. left. reflexivity. }
    apply filter_In in Hin as [Hin Hchunk].
    exists cm, rem, y, md, tree, children, node, k.
    rewrite Hf. repeat split; auto.
Qed.

End ParserCalls.

Lemma renderer_is_called_after_parsing_witness :
  exists comments remainingQmdString yaml markdown tree children node k,
    plain_extract (js "doc") = Returned (comments, remainingQmdString)
    /\ no_front_matter remainingQmdString = Returned (yaml, markdown)
    /\ chunk_parse markdown = Returned tree
    /\ md_children tree = Some children
    /\ In node children /\ is_chunk node = true
    /\ [(Some (js "plot(x)"), js "r")]
       = [] ++ List.map call_of (firstn k (filter is_chunk children)).
Proof.
  apply (@renderer_is_called_after_parsing
           unit (list jsstring) unit
           plain_extract no_front_matter chunk_parse rejecting_renderChunk
           (js "doc") [] (Thrown (Raised tt)) [(Some (js "plot(x)"), js "r")]).
  - reflexivity.
  - discriminate.
Defined.

(* ===================================================================== *)
(** * Front matter *)
(* ===================================================================== *)




Section FrontMatter.

Variables Yaml Comments Err : Type.
Variable extractCommentsAppendix : jsstring -> outcome Err (Comments * jsstring).
Variable remark_parse : jsstring -> outcome Err MdNode.
Variable renderChunk : Trace -> option jsstring -> jsstring -> outcome Err jsstring.
Variable empty_data : Yaml.
Variable file_data : jsstring -> jsstring -> outcome Err Yaml.
Variable cache : jsstring -> option (Yaml * jsstring).

Local Abbreviation gray_matter := (GrayMatter.matter empty_data file_data cache).
Local Abbreviation parse_with_matter :=
  (qmdToProseMirror extractCommentsAppendix gray_matter remark_parse renderChunk).







End FrontMatter.



